(** * DomainHunter: a shallow embedding of [main.py]

    The program enumerates sub-domains of a target domain: it builds one
    candidate name per wordlist label, resolves the candidates in
    consecutive batches of [concurrency] coroutines ([asyncio.gather]),
    collects one formatted line per candidate that resolved, advances a
    progress bar once per candidate and finally writes the collected lines
    to the output file.

    Python values are embedded as follows.
    - [str] is [string]; a character stands for a code point below 256.
    - [int] is [Z]; [list] is [list]; [float] is the primitive binary64
      [float], so that [time.time() - start_time] is [PrimFloat.sub].
    - a call that may raise returns an [outcome]; code with side effects
      lives in the monad [M] (state passing plus exceptions).
    - everything outside the program (the answers of the resolver, the
      clock, the decisions of the event loop, the file system, the
      verdict of the console on a message it is to render) is read from
      an environment [Env]; every function of the program is total, for
      every environment.
    - the error log, which the [logging] module owns (the file
      [scanner_errors.log] once [setup_logging] has run), is the list of
      the messages handed to [logging.error]; the files of the state are
      those the program itself opens for writing.

    The coroutines run on one thread. A coroutine [resolve_subdomain]
    has a single suspension point, the [await] of the DNS query; it is
    embedded as the code before that point and the code after it, and
    the event loop as the scheduler [run_pending], which resumes the
    pending coroutines of a batch one at a time in an order chosen by
    the environment. A keyboard interrupt is delivered the way the
    handler of [ScannerApp.run] expects it: as a [KeyboardInterrupt]
    raised in [scan] where it awaits the batch. *)

From Stdlib Require Import ZArith Ascii String Floats.
From Stdlib Require Import DecimalString DecimalFacts DecimalN.
From stdpp Require Import gmap strings list fin_maps.

Local Open Scope Z_scope.

(** ** Python primitives used by the program *)

Module Py.

(** The exceptions that can occur, with the part of the class hierarchy
    the handlers of the program distinguish. [DNSError] is
    [aiodns.error.DNSError]; [OSError] is also known as [IOError];
    [OtherException] stands for any other subclass of [Exception];
    each of them carries [str(e)]. [KeyboardInterrupt] and
    [CancelledError] derive from [BaseException] only. *)
Inductive exn : Type :=
| DNSError (msg : string)
| ValueError (msg : string)
| TypeError (msg : string)
| FileNotFoundError (msg : string)
| OSError (msg : string)
| OtherException (msg : string)
| KeyboardInterrupt
| CancelledError.

(** [isinstance(e, Exception)] *)
Definition is_Exception (e : exn) : bool :=
  match e with
  | KeyboardInterrupt | CancelledError => false
  | _ => true
  end.

(** [str(e)] *)
Definition str_exn (e : exn) : string :=
  match e with
  | DNSError m | ValueError m | TypeError m | FileNotFoundError m
  | OSError m | OtherException m => m
  | KeyboardInterrupt | CancelledError => EmptyString
  end.

(** The result of evaluating an expression: a value or a raised
    exception. *)
Inductive outcome (A : Type) : Type :=
| Return (a : A)
| Raise (e : exn).
Global Arguments Return {A} a.
Global Arguments Raise {A} e.

(** Truth value of a [str] and of a [list]: empty is false. *)
Definition truthy_str (s : string) : bool :=
  match s with EmptyString => false | String _ _ => true end.

Definition truthy_list {A} (l : list A) : bool :=
  match l with [] => false | _ :: _ => true end.

(** [sep.join(l)] *)
Definition join (sep : string) (l : list string) : string :=
  String.concat sep l.

(** [len(range(start, stop, step))] for a non-zero step. *)
Definition range_len (start stop step : Z) : Z :=
  if 0 <? step then
    if start <? stop then (stop - start - 1) / step + 1 else 0
  else
    if stop <? start then (start - stop - 1) / (- step) + 1 else 0.

(** [range(start, stop, step)], enumerated. A zero step raises
    [ValueError]. *)
Definition range (start stop step : Z) : outcome (list Z) :=
  if step =? 0 then Raise (ValueError "range() arg 3 must not be zero")
  else Return ((λ k : nat, start + Z.of_nat k * step) <$>
                 seq 0 (Z.to_nat (range_len start stop step))).

(** A slice bound [k] of a sequence of length [n]: negative bounds count
    from the end, and every bound is clamped to [0..n]. *)
Definition clamp (k n : Z) : Z :=
  if k <? 0 then Z.max (k + n) 0 else Z.min k n.

(** [l[lo:hi]] *)
Definition slice {A} (l : list A) (lo hi : Z) : list A :=
  let n := Z.of_nat (length l) in
  let a := clamp lo n in
  let b := clamp hi n in
  take (Z.to_nat (b - a)) (drop (Z.to_nat a) l).

(** [c.isspace()] for a code point below 256. *)
Definition isspace (c : ascii) : bool :=
  let n := nat_of_ascii c in
  ((9 <=? n)%nat && (n <=? 13)%nat) || ((28 <=? n)%nat && (n <=? 32)%nat)
  || (n =? 133)%nat || (n =? 160)%nat.

Fixpoint lstrip (s : string) : string :=
  match s with
  | EmptyString => EmptyString
  | String c s' => if isspace c then lstrip s' else s
  end.

Fixpoint rstrip (s : string) : string :=
  match s with
  | EmptyString => EmptyString
  | String c s' =>
      match rstrip s' with
      | EmptyString => if isspace c then EmptyString else String c EmptyString
      | r => String c r
      end
  end.

(** [s.strip()] *)
Definition strip (s : string) : string := rstrip (lstrip s).

(** *** Fixed-point formatting of a float: [f"{x:.2f}"]

    The exact value [m * 2^e] of a finite float is scaled by 100 and
    rounded to the nearest integer, ties to even, as the correctly
    rounded conversion of CPython does. *)
Definition round_half_even (num den : Z) : Z :=
  let q := num / den in
  let r := num mod den in
  match 2 * r ?= den with
  | Lt => q
  | Gt => q + 1
  | Eq => if Z.even q then q else q + 1
  end.

Definition hundredths (m : positive) (e : Z) : Z :=
  if 0 <=? e then 100 * Z.pos m * 2 ^ e
  else round_half_even (100 * Z.pos m) (2 ^ (- e)).

Definition dec (n : Z) : string :=
  NilEmpty.string_of_uint (N.to_uint (Z.to_N n)).

Definition two_digits (n : Z) : string :=
  if n <? 10 then "0" +:+ dec n else dec n.

Definition fixed2 (q : Z) : string :=
  dec (q / 100) +:+ "." +:+ two_digits (q mod 100).

Definition sign_str (s : bool) : string :=
  if s then "-" else EmptyString.

Definition format_2f (x : float) : string :=
  match Prim2SF x with
  | S754_nan => "nan"
  | S754_infinity s => sign_str s +:+ "inf"
  | S754_zero s => sign_str s +:+ "0.00"
  | S754_finite s m e => sign_str s +:+ fixed2 (hundredths m e)
  end.

End Py.

Import Py.

(** ** The world the program runs in *)

(** The [ResolutionOutcome] of a candidate: the program never builds this
    record, it holds the three values in local variables of
    [resolve_subdomain]. *)
Record ResolutionOutcome : Type := {
  candidate : string;
  addresses : list string;
  elapsedSeconds : float;
}.

(** What the program did to the network, in order: a query handed to the
    resolver, or a query answered and its coroutine resumed. The trace is
    specification state: the program does not read it. *)
Inductive event : Type :=
| Asked (name : string)
| Answered (o : ResolutionOutcome).

(** A decision of the event loop while a batch is in flight: resume the
    [k]-th (modulo the number pending) of the coroutines still waiting
    for their answer, or deliver a keyboard interrupt to the awaiting
    [scan]. *)
Inductive decision : Type :=
| Complete (k : nat)
| Interrupt.

(** What can go wrong between the opening of a file for writing and its
    closing: the device fails (an [OSError]: no space left, an input or
    output error), or a character of the text has no encoding in the
    codec of the file (a [UnicodeEncodeError], which is a
    [ValueError]). *)
Inductive write_failure : Type :=
| DeviceFailure (msg : string)
| EncodeFailure (msg : string).

Definition exn_of_failure (w : write_failure) : exn :=
  match w with
  | DeviceFailure m => OSError m
  | EncodeFailure m => ValueError m
  end.

(** Everything the program does not control. *)
Record Env : Type := {
  (** the value of awaiting the [n]-th query handed to the resolver:
      [result.addresses], or the exception raised *)
  gethostbyname : nat → outcome (list string);
  (** the [n]-th reading of [time.time()] *)
  clock : nat → float;
  (** the [n]-th decision of the event loop *)
  schedule : nat → decision;
  (** the lines of a text file opened for reading, or the exception raised
      by opening or reading it *)
  read_lines : string → outcome (list string);
  (** whether a file can be opened for writing *)
  open_w : string → outcome unit;
  (** writing a text to the file opened at a path, and closing it:
      [None] when all of the text reached the file, [Some (w, k)] when
      the failure [w] occurred after [k] characters had reached it *)
  write_w : string → string → option (write_failure * nat);
  (** the verdict of the console on a message that holds interpolated
      text, which it reads as markup: [None] when it renders the message,
      [Some m] when it raises [MarkupError(m)], as it does for a closing
      tag that matches no open tag *)
  markup_error : string → option string;
}.

(** A text file as [open(path, "w", encoding=...)] and the writes that
    follow leave it: the codec it was opened with and the text written. *)
Record file : Type := {
  encoding : string;
  text : string;
}.

Record State : Type := {
  results : list string;          (** [self.results] *)
  console : list string;          (** what [console.print] was given *)
  errors : list string;           (** what [logging.error] was given:
                                      the records of the error log *)
  files : gmap string file;       (** the files the program opened for
                                      writing, by path *)
  total : option Z;               (** progress bar: [task.total] *)
  completed : Z;                  (** progress bar: [task.completed] *)
  shown : list Z;                 (** [task.completed] after each update *)
  trace : list event;
  ticks : nat;                    (** readings of the clock so far *)
  asked : nat;                    (** queries handed to the resolver so far *)
  steps : nat;                    (** decisions of the event loop so far *)
}.

Definition initial : State :=
  {| results := []; console := []; errors := []; files := ∅; total := None;
     completed := 0; shown := []; trace := []; ticks := 0; asked := 0;
     steps := 0 |}.

Definition set_results (v : list string) (st : State) : State :=
  {| results := v; console := console st; errors := errors st;
     files := files st; total := total st; completed := completed st;
     shown := shown st; trace := trace st; ticks := ticks st;
     asked := asked st; steps := steps st |}.

Definition set_console (v : list string) (st : State) : State :=
  {| results := results st; console := v; errors := errors st;
     files := files st; total := total st; completed := completed st;
     shown := shown st; trace := trace st; ticks := ticks st;
     asked := asked st; steps := steps st |}.

Definition set_errors (v : list string) (st : State) : State :=
  {| results := results st; console := console st; errors := v;
     files := files st; total := total st; completed := completed st;
     shown := shown st; trace := trace st; ticks := ticks st;
     asked := asked st; steps := steps st |}.

Definition set_files (v : gmap string file) (st : State) : State :=
  {| results := results st; console := console st; errors := errors st;
     files := v; total := total st; completed := completed st;
     shown := shown st; trace := trace st; ticks := ticks st;
     asked := asked st; steps := steps st |}.

Definition set_bar (t : option Z) (c : Z) (sh : list Z) (st : State)
  : State :=
  {| results := results st; console := console st; errors := errors st;
     files := files st; total := t; completed := c;
     shown := sh; trace := trace st; ticks := ticks st;
     asked := asked st; steps := steps st |}.

Definition set_trace (v : list event) (st : State) : State :=
  {| results := results st; console := console st; errors := errors st;
     files := files st; total := total st; completed := completed st;
     shown := shown st; trace := v; ticks := ticks st;
     asked := asked st; steps := steps st |}.

Definition set_ticks (v : nat) (st : State) : State :=
  {| results := results st; console := console st; errors := errors st;
     files := files st; total := total st; completed := completed st;
     shown := shown st; trace := trace st; ticks := v;
     asked := asked st; steps := steps st |}.

Definition set_asked (v : nat) (st : State) : State :=
  {| results := results st; console := console st; errors := errors st;
     files := files st; total := total st; completed := completed st;
     shown := shown st; trace := trace st; ticks := ticks st;
     asked := v; steps := steps st |}.

Definition set_steps (v : nat) (st : State) : State :=
  {| results := results st; console := console st; errors := errors st;
     files := files st; total := total st; completed := completed st;
     shown := shown st; trace := trace st; ticks := ticks st;
     asked := asked st; steps := v |}.

(** ** The monad of effectful code: state passing and exceptions *)

Definition M (A : Type) : Type := State → outcome A * State.

Definition ret {A} (a : A) : M A := λ st, (Return a, st).

Definition bind {A B} (c : M A) (k : A → M B) : M B :=
  λ st, match c st with
        | (Return a, st') => k a st'
        | (Raise e, st') => (Raise e, st')
        end.

Definition raise {A} (e : exn) : M A := λ st, (Raise e, st).

(** [try: c  except ...: h e] where the handler decides by itself which
    exceptions it lets through. *)
Definition try_except {A} (c : M A) (h : exn → M A) : M A :=
  λ st, match c st with
        | (Return a, st') => (Return a, st')
        | (Raise e, st') => h e st'
        end.

Definition lift {A} (r : outcome A) : M A := λ st, (r, st).

Definition modify (f : State → State) : M unit := λ st, (Return tt, f st).

Declare Scope py_scope.
Delimit Scope py_scope with py.
Notation "x <- c ;; k" := (bind c (λ x, k))
  (at level 100, c at next level, right associativity) : py_scope.
Notation "c ;; k" := (bind c (λ _, k))
  (at level 100, right associativity) : py_scope.
Local Open Scope py_scope.

(** [for x in l: body x] *)
Fixpoint for_each {A} (l : list A) (body : A → M unit) : M unit :=
  match l with
  | [] => ret tt
  | x :: l' => body x ;; for_each l' body
  end.

(** [[f x for x in l]] where [f] has effects *)
Fixpoint map_m {A B} (f : A → M B) (l : list A) : M (list B) :=
  match l with
  | [] => ret []
  | x :: l' => y <- f x ;; ys <- map_m f l' ;; ret (y :: ys)
  end.

(** ** The program *)

Definition nl : string := String "010"%char EmptyString.

(** The configuration of a [SubdomainScanner]; its mutable attribute
    [results] is part of the [State]. *)
Record SubdomainScanner : Type := {
  domain : string;
  wordlist : list string;
  concurrency : Z;
  output_file : option string;
}.

(** [if self.output_file:] holds for a path that is neither [None] nor
    empty. *)
Definition truthy_path (p : option string) : bool :=
  match p with
  | None => false
  | Some s => truthy_str s
  end.

(** [SubdomainScanner.generate_subdomains] *)
Definition generate_subdomains (self : SubdomainScanner) : list string :=
  (λ word, word +:+ "." +:+ domain self) <$>
    filter (λ word, truthy_str word) (wordlist self).

(** The line collected for a candidate that resolved. *)
Definition result_line (subdomain : string) (resolved_ips : list string)
    (duration : float) : string :=
  subdomain +:+ " -> " +:+ join ", " resolved_ips +:+ " "
    +:+ format_2f duration.

(** The line printed for a candidate that resolved. *)
Definition console_line (subdomain : string) (resolved_ips : list string)
    (duration : float) : string :=
  "[green]" +:+ subdomain +:+ "[/green] -> [cyan]"
    +:+ join ", " resolved_ips +:+ "[/cyan] ([yellow]"
    +:+ format_2f duration +:+ "s[/yellow])".

(** A coroutine [resolve_subdomain(subdomain, ...)] suspended at its
    [await]: its argument, its local [start_time] and the number of the
    query it waits for. *)
Record task : Type := {
  t_subdomain : string;
  t_start_time : float;
  t_query : nat;
}.

Section Program.

Variable env : Env.

(** [console.print(s)] for a literal [s] of the program: its markup is
    well formed, and the console renders it. *)
Definition console_print (s : string) : M unit :=
  modify (λ st, set_console (console st ++ [s]) st).

(** [console.print(f"...")] for a message [s] built from values of the
    run (a candidate, addresses, the domain, a path): the console reads
    all of [s] as markup and raises a [MarkupError], an [Exception], when
    it rejects it; nothing is printed then. *)
Definition console_print_f (s : string) : M unit :=
  match markup_error env s with
  | None => console_print s
  | Some m => raise (OtherException m)
  end.

Definition logging_error (s : string) : M unit :=
  modify (λ st, set_errors (errors st ++ [s]) st).

(** [time.time()] *)
Definition time_time : M float :=
  λ st, (Return (clock env (ticks st)), set_ticks (S (ticks st)) st).

(** [progress.add_task(..., total=n)] *)
Definition add_task (n : Z) : M unit :=
  modify (set_bar (Some n) 0 []).

(** [progress.update(task_id, advance=1)] *)
Definition progress_update : M unit :=
  modify (λ st, set_bar (total st) (completed st + 1)
                  (shown st ++ [completed st + 1]) st).

(** [self.resolver.gethostbyname(subdomain, socket.AF_UNSPEC)] up to the
    suspension: the query leaves, and is numbered. *)
Definition send_query (subdomain : string) : M nat :=
  λ st, (Return (asked st),
         set_asked (S (asked st))
           (set_trace (trace st ++ [Asked subdomain]) st)).

(** [DNSResolver.resolve], from the point where the [await] yields
    [reply]: the addresses on success, the empty list for a
    [DNSError], the empty list and a logged message for any other
    [Exception]; an exception outside [Exception] passes through. *)
Definition resolve (subdomain : string) (reply : outcome (list string))
  : M (list string) :=
  match reply with
  | Return addrs => ret addrs
  | Raise (DNSError _) => ret []
  | Raise e =>
      if is_Exception e then
        logging_error ("Error resolving " +:+ subdomain +:+ ": "
                         +:+ str_exn e) ;;
        ret []
      else raise e
  end.

(** [SubdomainScanner.resolve_subdomain] up to the suspension. *)
Definition resolve_subdomain_start (subdomain : string) : M task :=
  start_time <- time_time ;;
  q <- send_query subdomain ;;
  ret {| t_subdomain := subdomain; t_start_time := start_time;
         t_query := q |}.

(** [SubdomainScanner.resolve_subdomain] from the suspension on. The
    event loop runs it without interruption: it contains no further
    [await]. The outcome is noted in the trace, for the specification
    only, as soon as the answer and the two readings of the clock are
    there; an exception of the [print] leaves the coroutine before the
    line is collected and before the bar advances. *)
Definition resolve_subdomain_resume (t : task) : M unit :=
  let subdomain := t_subdomain t in
  resolved_ips <- resolve subdomain (gethostbyname env (t_query t)) ;;
  now <- time_time ;;
  let duration := PrimFloat.sub now (t_start_time t) in
  modify (λ st, set_trace
                  (trace st ++
                     [Answered {| candidate := subdomain;
                                  addresses := resolved_ips;
                                  elapsedSeconds := duration |}]) st) ;;
  (if truthy_list resolved_ips then
     console_print_f (console_line subdomain resolved_ips duration) ;;
     modify (λ st, set_results
                     (results st ++
                        [result_line subdomain resolved_ips duration]) st)
   else ret tt) ;;
  progress_update.

(** The event loop while [scan] awaits a batch: as long as coroutines
    are pending, the next decision either interrupts [scan] or picks
    the coroutine whose answer arrives next. The first exception that
    leaves a coroutine is handed to [scan], as [gather] does, and the
    wait ends there: the coroutines of the batch still pending are not
    followed further. The event loop may resume some of them before
    [scan] continues; the properties count the outcomes of a run and
    never rely on the one that was left being the last. *)
Fixpoint run_pending (fuel : nat) (pending : list task) : M unit :=
  match fuel, pending with
  | S fuel', _ :: _ =>
      d <- (λ st, (Return (schedule env (steps st)),
                    set_steps (S (steps st)) st)) ;;
      match d with
      | Interrupt => raise KeyboardInterrupt
      | Complete k =>
          let i := (k mod length pending)%nat in
          match pending !! i with
          | Some t =>
              resolve_subdomain_resume t ;;
              run_pending fuel' (delete i pending)
          | None => ret tt
          end
      end
  | _, _ => ret tt
  end.

(** [await asyncio.gather] of the tasks, the coroutines being those of
    [batch]: each one is started, in order, and runs to its
    suspension; then the answers arrive in the order the event loop
    decides. *)
Definition gather (batch : list string) : M unit :=
  pending <- map_m resolve_subdomain_start batch ;;
  run_pending (length pending) pending.

(** [file.writelines(f"{result}\n" for result in lines)] *)
Definition file_text (lines : list string) : string :=
  String.concat EmptyString ((λ result, result +:+ nl) <$> lines).

(** The [with open(path, "w", encoding="utf-8") as file:] block of
    [save_results], once the file is open: the file holds the text, or
    the part of it that was written when the write or the closing
    failed. *)
Definition write_file (path : string) : M unit :=
  λ st,
    let t := file_text (results st) in
    match write_w env path t with
    | None =>
        (Return tt,
         set_files (<[path := {| encoding := "utf-8"; text := t |}]>
                      (files st)) st)
    | Some (w, k) =>
        (Raise (exn_of_failure w),
         set_files (<[path := {| encoding := "utf-8";
                                 text := substring 0 k t |}]>
                      (files st)) st)
    end.

(** [SubdomainScanner.save_results]. Without a path, [open] raises a
    [TypeError], which the handler does not catch. The handler catches
    an [OSError] ([IOError] is the same class) of the opening, of the
    writing and of the closing; any other exception passes, that of the
    [print] included. *)
Definition save_results (self : SubdomainScanner) : M unit :=
  try_except
    (match output_file self with
     | None =>
         raise (TypeError
                  "expected str, bytes or os.PathLike object, not NoneType")
     | Some path =>
         lift (open_w env path) ;;
         write_file path ;;
         console_print_f ("[bold green]Results saved to:[/bold green] "
                            +:+ path)
     end)
    (λ e, match e with
          | OSError m | FileNotFoundError m =>
              logging_error ("Error saving results: " +:+ m)
          | _ => raise e
          end).

(** The body of the [for] loop of [scan]. *)
Definition scan_batch (self : SubdomainScanner) (subdomains : list string)
    (i : Z) : M unit :=
  let batch := slice subdomains i (i + concurrency self) in
  gather batch.

(** [SubdomainScanner.scan]. The [with Progress(...)] block starts and
    stops the display of the bar and lets exceptions through. *)
Definition scan (self : SubdomainScanner) : M unit :=
  let subdomains := generate_subdomains self in
  add_task (Z.of_nat (length subdomains)) ;;
  starts <- lift (range 0 (Z.of_nat (length subdomains))
                    (concurrency self)) ;;
  for_each starts (scan_batch self subdomains) ;;
  if truthy_path (output_file self) then save_results self else ret tt.

(** [WordlistLoader.load] *)
Definition load (file_path : string) : M (list string) :=
  match read_lines env file_path with
  | Return lines =>
      ret (strip <$> filter (λ line, truthy_str (strip line)) lines)
  | Raise (FileNotFoundError _) =>
      logging_error ("Wordlist file '" +:+ file_path +:+ "' not found.") ;;
      ret []
  | Raise (OSError m) =>
      logging_error ("Error reading wordlist file: " +:+ m) ;;
      ret []
  | Raise e => raise e
  end.

(** [SubdomainScanner(domain, wordlist, concurrency, output_file)] *)
Definition new_scanner (domain : string) (wordlist : list string)
    (concurrency : Z) (output_file : option string)
  : M SubdomainScanner :=
  modify (set_results []) ;;
  ret {| domain := domain; wordlist := wordlist;
         concurrency := concurrency; output_file := output_file |}.

(** [ScannerApp.run] *)
Definition run (domain wordlist_path : string) (concurrency : Z)
    (output_file : option string) : M unit :=
  wordlist <- load wordlist_path ;;
  if negb (truthy_list wordlist) then
    console_print "[red]No words found in the wordlist. Exiting.[/red]"
  else
    scanner <- new_scanner domain wordlist concurrency output_file ;;
    try_except
      (console_print_f
         ("[bold green]Starting scan for domain:[/bold green] " +:+ domain) ;;
       scan scanner)
      (λ e, match e with
            | KeyboardInterrupt =>
                console_print
                  (nl +:+ "[bold red]Scan interrupted by user.[/bold red]")
            | _ =>
                if is_Exception e then
                  logging_error ("Unexpected error: " +:+ str_exn e)
                else raise e
            end).

End Program.

(** The groups [scan] forms, as a value: the slices taken at the starts
    the [range] enumerates. *)
Definition batches (n : Z) (subdomains : list string)
  : outcome (list (list string)) :=
  match range 0 (Z.of_nat (length subdomains)) n with
  | Return starts => Return ((λ i, slice subdomains i (i + n)) <$> starts)
  | Raise e => Raise e
  end.

(** * The vocabulary of the properties *)

(** ** Formatted numbers *)

(** A decimal digit, and a string of decimal digits. *)
Definition is_digit (c : ascii) : bool :=
  (48 <=? nat_of_ascii c)%nat && (nat_of_ascii c <=? 57)%nat.

Fixpoint all_digits (s : string) : bool :=
  match s with
  | EmptyString => true
  | String c s' => is_digit c && all_digits s'
  end.

(** ** Batching *)

(** The quotient of [a] by [b], rounded up. *)
Definition ceil_div (a b : Z) : Z := (a + b - 1) / b.

(** The [k]-th group of [n] elements of [l]. *)
Definition chunk {A} (n : nat) (l : list A) (k : nat) : list A :=
  take n (drop (k * n) l).

(** ** What a run adds to the state *)

(** The outcomes and the queries recorded in a piece of trace. *)
Definition answers (tr : list event) : list ResolutionOutcome :=
  omap (λ e, match e with Answered o => Some o | Asked _ => None end) tr.

Definition asks (tr : list event) : list string :=
  omap (λ e, match e with Asked s => Some s | Answered _ => None end) tr.

(** The queries in flight after the events [tr]: asked and not yet
    answered. *)
Definition in_flight (tr : list event) : Z :=
  Z.of_nat (length (asks tr)) - Z.of_nat (length (answers tr)).

(** The line of an outcome, and the outcomes that are collected. *)
Definition line_of (o : ResolutionOutcome) : string :=
  result_line (candidate o) (addresses o) (elapsedSeconds o).

Definition collected (os : list ResolutionOutcome) : list ResolutionOutcome :=
  filter (λ o, addresses o ≠ []) os.

(** [delta tr st st']: the state [st'] is [st] after the events [tr]
    happened. Every answer advanced the progress bar by one; the
    answers with addresses added their line to the results, in the order
    of the answers; nothing was written to a file. *)
Record delta (tr : list event) (st st' : State) : Prop := {
  d_trace : trace st' = trace st ++ tr;
  d_results :
    results st' = results st ++ (line_of <$> collected (answers tr));
  d_completed :
    completed st' = completed st + Z.of_nat (length (answers tr));
  d_shown :
    shown st' = shown st ++
      ((λ k : nat, completed st + Z.of_nat k) <$>
         seq 1 (length (answers tr)));
  d_total : total st' = total st;
  d_files : files st' = files st;
  d_asked : asked st' = (asked st + length (asks tr))%nat;
}.

(** ** The outcome of a candidate *)

(** The addresses [resolve] returns for a reply that it does not let
    through. *)
Definition answer_of (reply : outcome (list string)) : list string :=
  match reply with
  | Return addrs => addrs
  | Raise _ => []
  end.

(** The outcome of the candidate of [t] when [t] is resumed in [st]. *)
Definition outcome_of (env : Env) (t : task) (st : State) : ResolutionOutcome :=
  {| candidate := t_subdomain t;
     addresses := answer_of (gethostbyname env (t_query t));
     elapsedSeconds := PrimFloat.sub (clock env (ticks st))
                         (t_start_time t) |}.

(** An outcome without its timing, and the same for a pending
    coroutine: its candidate and what the resolver answers to its
    query. *)
Definition summary (o : ResolutionOutcome) : string * list string :=
  (candidate o, addresses o).

Definition task_summary (env : Env) (t : task) : string * list string :=
  (t_subdomain t, answer_of (gethostbyname env (t_query t))).

(** The summaries to expect for [names] when they are handed to the
    resolver one after the other, the first one as query number [q]. *)
Fixpoint expected (env : Env) (q : nat) (names : list string)
  : list (string * list string) :=
  match names with
  | [] => []
  | name :: names' =>
      (name, answer_of (gethostbyname env q)) :: expected env (S q) names'
  end.

(** ** The shape of the trace of a batch and of a run *)

(** A batch whose first query has number [q]: every candidate of the
    batch is asked, in order, before any answer arrives; then the
    answers arrive in some order, each candidate with the answer to its
    own query. In a batch that is cut, some candidates have no outcome. *)
Definition batch_done (env : Env) (q : nat) (batch : list string)
    (tr : list event) : Prop :=
  ∃ os, tr = (Asked <$> batch) ++ (Answered <$> os)
        ∧ summary <$> os ≡ₚ expected env q batch.

Definition batch_cut (env : Env) (q : nat) (batch : list string)
    (tr : list event) : Prop :=
  ∃ os rest, tr = (Asked <$> batch) ++ (Answered <$> os)
             ∧ rest ≠ [] ∧ (summary <$> os) ++ rest ≡ₚ expected env q batch.

(** The trace of groups that were all completed, one after the other,
    and the trace of a run that was cut in the group [g], after the
    groups [done] and before the groups [rest]. *)
Fixpoint in_order (env : Env) (q : nat) (groups : list (list string))
    (tr : list event) : Prop :=
  match groups with
  | [] => tr = []
  | g :: groups' =>
      ∃ tr1 tr2, tr = tr1 ++ tr2 ∧ batch_done env q g tr1
                 ∧ in_order env (q + length g) groups' tr2
  end.

Definition cut_short (env : Env) (q : nat) (groups : list (list string))
    (tr : list event) : Prop :=
  ∃ done g rest tr1 tr2,
    groups = done ++ g :: rest ∧ tr = tr1 ++ tr2
    ∧ in_order env q done tr1
    ∧ batch_cut env (q + length (concat done)) g tr2.

(** ** The messages of the application *)

Definition msg_no_words : string :=
  "[red]No words found in the wordlist. Exiting.[/red]".

Definition msg_starting (domain : string) : string :=
  "[bold green]Starting scan for domain:[/bold green] " +:+ domain.

Definition msg_saved (path : string) : string :=
  "[bold green]Results saved to:[/bold green] " +:+ path.

Definition msg_interrupted : string :=
  nl +:+ "[bold red]Scan interrupted by user.[/bold red]".

(** ** A coroutine left by the console *)

(** The line printed for an outcome. *)
Definition console_of (o : ResolutionOutcome) : string :=
  console_line (candidate o) (addresses o) (elapsedSeconds o).

(** [rejected env o m]: the outcome [o] has addresses, so that its line
    is printed, and the console rejects that line with the message
    [m]. *)
Definition rejected (env : Env) (o : ResolutionOutcome) (m : string) : Prop :=
  addresses o ≠ [] ∧ markup_error env (console_of o) = Some m.

(** Whether the console renders what the coroutine of [o] prints; the
    coroutine of an outcome without addresses prints nothing. *)
Definition rendered (env : Env) (o : ResolutionOutcome) : bool :=
  match addresses o, markup_error env (console_of o) with
  | _ :: _, Some _ => false
  | _, _ => true
  end.

(** Of the outcomes [os], those whose coroutine ran to its end: all of
    them but those whose line the console rejects. *)
Definition counted (env : Env) (os : list ResolutionOutcome)
  : list ResolutionOutcome :=
  filter (λ o, rendered env o) os.

(** [halted o st st']: from [st], the answer [o] arrived and the clock
    was read, and the coroutine was left before it printed, collected or
    advanced the bar. *)
Definition halted (o : ResolutionOutcome) (st st' : State) : Prop :=
  st' = set_trace (trace st ++ [Answered o]) (set_ticks (S (ticks st)) st).

(** The trace of a run that is in, or was left in, one of its groups:
    the groups before it are complete, and that group is complete or
    cut. *)
Definition left_in (env : Env) (q : nat) (groups : list (list string))
    (tr : list event) : Prop :=
  (∃ k, in_order env q (take k groups) tr) ∨ cut_short env q groups tr.


(** ** The flush *)

(** The exceptions the handlers of [load] and of [save_results] name. *)
Definition is_OSError (e : exn) : bool :=
  match e with
  | OSError _ | FileNotFoundError _ => true
  | _ => false
  end.

(** What the flush at the end of [scan] leaves in the files, and how it
    ends: with the file written in full, [scan] returns unless the
    console rejects the message that names the path; a failure of the
    device during the write is logged, one of the encoding is raised;
    when the file cannot be opened, an [OSError] is logged and any other
    exception raised. *)
Definition flushed (env : Env) (self : SubdomainScanner) (st : State)
    (r : outcome unit) (st' : State) : Prop :=
  match output_file self with
  | Some (String c path' as path) =>
      match open_w env path with
      | Return _ =>
          match write_w env path (file_text (results st')) with
          | None =>
              files st' =
                <[path := {| encoding := "utf-8";
                             text := file_text (results st') |}]>
                  (files st)
              ∧ r = match markup_error env (msg_saved path) with
                    | None => Return tt
                    | Some m => Raise (OtherException m)
                    end
          | Some (w, k) =>
              files st' =
                <[path := {| encoding := "utf-8";
                             text := substring 0 k
                                       (file_text (results st')) |}]>
                  (files st)
              ∧ r = match w with
                    | DeviceFailure _ => Return tt
                    | EncodeFailure m => Raise (ValueError m)
                    end
          end
      | Raise e =>
          files st' = files st
          ∧ r = if is_OSError e then Return tt else Raise e
      end
  | Some EmptyString | None => r = Return tt ∧ files st' = files st
  end.

(** ** A concrete run, used to exercise the theorems

    The domain [example.com] with the labels [www], [doesnotexist123]
    and [mail]; the second name does not exist. With a concurrency of
    two there are two groups; in the first one the negative answer
    arrives before the positive one. *)
Module Demo.

Definition replies (n : nat) : outcome (list string) :=
  match n with
  | 0%nat => Return ["93.184.216.34"; "2606:2800:220:1::1946"]
  | 1%nat => Raise (DNSError "Domain name not found")
  | 2%nat => Return ["93.184.216.35"]
  | _ => Raise (OtherException "unexpected reply")
  end.

Definition readings (n : nat) : float :=
  nth n [1000; 1000.125; 1000.25; 1000.5; 1000.75; 1001.5]%float
    1002%float.

Definition wordfile : list string :=
  ["www" +:+ nl; "  " +:+ nl; "doesnotexist123" +:+ nl; "mail"].

(** Every decision resumes a pending coroutine; the first one picks the
    second coroutine of the first group. *)
Definition env : Env :=
  {| gethostbyname := replies;
     clock := readings;
     schedule := λ n, match n with 0%nat => Complete 1 | _ => Complete 0 end;
     read_lines := λ _, Return wordfile;
     open_w := λ _, Return tt;
     write_w := λ _ _, None;
     markup_error := λ _, None |}.


(** The wordlist file cannot be found. *)
Definition env_no_wordlist : Env :=
  {| gethostbyname := replies;
     clock := readings;
     schedule := λ _, Complete 0;
     read_lines := λ _, Raise (FileNotFoundError "No such file or directory");
     open_w := λ _, Return tt;
     write_w := λ _ _, None;
     markup_error := λ _, None |}.

Definition scanner (n : Z) : SubdomainScanner :=
  {| domain := "example.com";
     wordlist := ["www"; "doesnotexist123"; "mail"];
     concurrency := n;
     output_file := Some "found.txt" |}.

End Demo.

(** ** Further vocabulary *)

(** The first and the last character of a string, when it has one. *)
Definition first_char (s : string) : option ascii :=
  match s with
  | EmptyString => None
  | String c _ => Some c
  end.

Fixpoint last_char (s : string) : option ascii :=
  match s with
  | EmptyString => None
  | String c EmptyString => Some c
  | String _ s' => last_char s'
  end.

(** A word as the wordlist loader delivers it: not empty, and without
    white space at either end. *)
Definition clean_word (w : string) : Prop :=
  w ≠ EmptyString ∧ strip w = w
  ∧ (∀ c, first_char w = Some c → isspace c = false)
  ∧ (∀ c, last_char w = Some c → isspace c = false).

Definition msg_range : string := "range() arg 3 must not be zero".

(** The scanner [run] builds, and the state in which its scan starts
    when [load] left the state [st1]. *)
Definition scanner_of (domain : string) (wl : list string) (n : Z)
    (out : option string) : SubdomainScanner :=
  {| domain := domain; wordlist := wl; concurrency := n;
     output_file := out |}.

Definition scan_start (domain : string) (st1 : State) : State :=
  set_console (console st1 ++ [msg_starting domain]) (set_results [] st1).

(** What [resolve] logs for a reply to the query of [name]: one message
    for an [Exception] that is not a [DNSError], nothing otherwise. *)
Definition err_of (name : string) (reply : outcome (list string))
  : list string :=
  match reply with
  | Return _ => []
  | Raise (DNSError _) => []
  | Raise e =>
      if is_Exception e then
        ["Error resolving " +:+ name +:+ ": " +:+ str_exn e]
      else []
  end.

Definition task_err (env : Env) (t : task) : list string :=
  err_of (t_subdomain t) (gethostbyname env (t_query t)).

(** The messages to expect in the log for [names] when they are handed
    to the resolver one after the other, the first one as query number
    [q]. *)
Fixpoint expected_errors (env : Env) (q : nat) (names : list string)
  : list string :=
  match names with
  | [] => []
  | name :: names' =>
      err_of name (gethostbyname env q) ++ expected_errors env (S q) names'
  end.

(** [effects tr errs st st']: in going from [st] to [st'] the events
    [tr] happened, the lines of the answers with addresses were printed
    and collected in the order of the answers, the messages [errs] were
    logged, and the clock was read once per event. *)
Record effects (tr : list event) (errs : list string) (st st' : State)
  : Prop := {
  e_trace : trace st' = trace st ++ tr;
  e_results :
    results st' = results st ++ (line_of <$> collected (answers tr));
  e_console :
    console st' = console st ++ (console_of <$> collected (answers tr));
  e_errors : errors st' = errors st ++ errs;
  e_ticks : ticks st' = (ticks st + length tr)%nat;
}.

(** [or_halted env r st1 st']: the state [st'] is [st1], or it is
    [st1] after the answer of a coroutine that the console left. *)
Definition or_halted (env : Env) (r : outcome unit) (st1 st' : State)
  : Prop :=
  st' = st1
  ∨ ∃ o m, r = Raise (OtherException m) ∧ rejected env o m
           ∧ halted o st1 st'.


(** ** The output file, in the words of the specification *)

(** The number a string of decimal digits stands for. *)
Definition number_of (s : string) : option Z :=
  match NilEmpty.uint_of_string s with
  | Some d => Some (Z.of_N (N.of_uint d))
  | None => None
  end.

(** [numeral s n]: [s] is the decimal numeral of [n], with at least one
    digit and no zero in front of another digit. *)
Definition numeral (s : string) (n : Z) : Prop :=
  number_of s = Some n ∧ s ≠ EmptyString
  ∧ (first_char s = Some "0"%char → s = "0").

(** [q] hundredths is the multiple of one hundredth nearest to
    [m * 2^e], the even one when two are equally near. With
    [m * 2^e = num / (100 * den)], the distance of [q / 100] to it is
    [|num - q * den| / (100 * den)], and half a hundredth is
    [den / (200 * den)]. *)
Definition nearest_hundredths (m : positive) (e : Z) (q : Z) : Prop :=
  let num := 100 * Z.pos m * 2 ^ Z.max e 0 in
  let den := 2 ^ Z.max (- e) 0 in
  2 * Z.abs (num - q * den) ≤ den
  ∧ (2 * Z.abs (num - q * den) = den → Z.even q = true).

(** From the words of the specification, "formatted to 2 decimals":
    [t] is [x] in fixed-point notation with two decimals. For a number
    it is a minus sign when the sign of [x] is set, the numeral of a
    whole part, a dot and two digits, which together stand for the
    number of hundredths nearest to the absolute value of [x]. *)
Definition two_decimals (x : float) (t : string) : Prop :=
  match Prim2SF x with
  | S754_finite s m e =>
      ∃ whole frac w f,
        t = (if s then "-" else EmptyString) +:+ whole +:+ "." +:+ frac
        ∧ numeral whole w
        ∧ String.length frac = 2%nat ∧ number_of frac = Some f
        ∧ nearest_hundredths m e (100 * w + f)
  | S754_zero s => t = (if s then "-" else EmptyString) +:+ "0.00"
  | S754_infinity s => t = (if s then "-" else EmptyString) +:+ "inf"
  | S754_nan => t = "nan"
  end.

(** From the words of the specification, the line of an outcome:
    [<candidate> -> <addresses, separated by a comma and a space>
    <elapsedSeconds formatted to 2 decimals>]. *)
Definition serialized (o : ResolutionOutcome) (l : string) : Prop :=
  ∃ t, two_decimals (elapsedSeconds o) t
       ∧ l = candidate o +:+ " -> " +:+ String.concat ", " (addresses o)
               +:+ " " +:+ t.

(** Whether a string holds a newline. *)
Fixpoint has_newline (s : string) : bool :=
  match s with
  | EmptyString => false
  | String c s' => Ascii.eqb c "010" || has_newline s'
  end.

(** The lines of a text: every newline ends a line; [cur] is the part
    of the current line read so far. What follows the last newline is
    not a line. *)
Fixpoint lines_from (cur : string) (t : string) : list string :=
  match t with
  | EmptyString => []
  | String c t' =>
      if Ascii.eqb c "010" then cur :: lines_from EmptyString t'
      else lines_from (cur +:+ String c EmptyString) t'
  end.

Definition text_lines (t : string) : list string := lines_from EmptyString t.

(** An outcome that fits on a line: no newline in its candidate or in
    its addresses. *)
Definition on_one_line (o : ResolutionOutcome) : Prop :=
  has_newline (candidate o) = false
  ∧ Forall (λ a, has_newline a = false) (addresses o).

(** Further environments: the event loop answers in the order asked. *)
Module Cases.

Definition fifo (open : string → outcome unit)
    (read : string → outcome (list string)) : Env :=
  {| gethostbyname := Demo.replies;
     clock := Demo.readings;
     schedule := λ _, Complete 0;
     read_lines := read;
     open_w := open;
     write_w := λ _ _, None;
     markup_error := λ _, None |}.

(** The output file cannot be opened. *)
Definition env_read_only : Env :=
  fifo (λ _, Raise (OSError "Permission denied"))
       (λ _, Return Demo.wordfile).


(** The wordlist file is not valid UTF-8. *)
Definition env_bad_wordlist : Env :=
  fifo (λ _, Return tt)
       (λ _, Raise (ValueError "'utf-8' codec can't decode byte 0xff")).

(** Everything works. *)
Definition env_fifo : Env :=
  fifo (λ _, Return tt) (λ _, Return Demo.wordfile).


(** The console rejects a message that holds the closing tag [[/x]]:
    no message of the program opens a tag of that name. The position
    is the index of the tag in the message. *)
Definition no_open_tag (s : string) : option string :=
  match index 0 "[/x]" s with
  | Some k =>
      Some ("closing tag '[/x]' at position " +:+ dec (Z.of_nat k)
              +:+ " doesn't match any open tag")
  | None => None
  end.

(** Every name resolves, and the console is as above. *)
Definition env_markup : Env :=
  {| gethostbyname := λ _, Return ["10.0.0.1"];
     clock := Demo.readings;
     schedule := λ _, Complete 0;
     read_lines := λ _, Return Demo.wordfile;
     open_w := λ _, Return tt;
     write_w := λ _ _, None;
     markup_error := no_open_tag |}.


(** The device is full: the file can be opened, and nothing can be
    written to it. *)
Definition env_disk_full : Env :=
  {| gethostbyname := Demo.replies;
     clock := Demo.readings;
     schedule := λ _, Complete 0;
     read_lines := λ _, Return Demo.wordfile;
     open_w := λ _, Return tt;
     write_w := λ _ _, Some (DeviceFailure "No space left on device", 0%nat);
     markup_error := λ _, None |}.

(** Four labels: with the replies of [Demo], the query of the fourth
    one fails with an error that is not a [DNSError]. *)
Definition four_words : list string := ["www"; "doesnotexist123"; "mail"; "x"].

End Cases.

(** * Properties *)

(** ** The primitives on examples *)

Example range_3 : range 0 7 3 = Return [0; 3; 6].
Proof. reflexivity. Qed.

Example range_neg : range 0 7 (-3) = Return [].
Proof. reflexivity. Qed.

Example slice_tail : slice ["a"; "b"; "c"; "d"; "e"] 3 6 = ["d"; "e"].
Proof. reflexivity. Qed.

Example strip_ex : strip "  www " = "www".
Proof. reflexivity. Qed.

Example format_ex1 : format_2f 0.125%float = "0.12".
Proof. vm_compute. reflexivity. Qed.

Example format_ex2 : format_2f 0.375%float = "0.38".
Proof. vm_compute. reflexivity. Qed.

Example format_ex3 : format_2f (PrimFloat.sub 1000.5 1000)%float = "0.50".
Proof. vm_compute. reflexivity. Qed.

Example format_ex4 : format_2f 1234.5%float = "1234.50".
Proof. vm_compute. reflexivity. Qed.

Example format_ex5 : format_2f (-0.001953125)%float = "-0.00".
Proof. vm_compute. reflexivity. Qed.

(** ** The fixed-point format *)

Lemma all_digits_string_of_uint (d : Decimal.uint) :
  all_digits (NilEmpty.string_of_uint d) = true.
Proof. induction d; simpl; auto. Qed.

Lemma two_digits_spec (r : Z) :
  0 ≤ r < 100 →
  String.length (two_digits r) = 2%nat ∧ all_digits (two_digits r) = true.
Proof.
  intros Hr.
  assert (Hall :
    forallb (λ k, (String.length (two_digits (Z.of_nat k)) =? 2)%nat
                  && all_digits (two_digits (Z.of_nat k)))
      (seq 0 100) = true) by (vm_compute; reflexivity).
  rewrite forallb_forall in Hall.
  specialize (Hall (Z.to_nat r)). rewrite Z2Nat.id in Hall by lia.
  destruct (andb_prop _ _ (Hall ltac:(apply in_seq; lia))) as [Hlen Hdig].
  by apply Nat.eqb_eq in Hlen.
Qed.

(** Rounding to the nearest integer, ties to even. *)
Lemma round_half_even_nearest (num den : Z) :
  0 < den →
  2 * Z.abs (num - round_half_even num den * den) ≤ den
  ∧ (2 * Z.abs (num - round_half_even num den * den) = den →
     Z.even (round_half_even num den) = true).
Proof.
  intros Hden. unfold round_half_even.
  pose proof (Z.div_mod num den ltac:(lia)) as Hdm.
  pose proof (Z.mod_pos_bound num den Hden) as Hr.
  set (q := num / den) in *. set (r := num mod den) in *.
  destruct (Z.compare_spec (2 * r) den) as [Heq|Hlt|Hgt].
  - destruct (Z.even q) eqn:Hev.
    + split; [nia | done].
    + split; [nia|]. intros _. rewrite Z.even_add, Hev. done.
  - split; nia.
  - split; nia.
Qed.

Lemma hundredths_nonneg (m : positive) (e : Z) : 0 ≤ hundredths m e.
Proof.
  unfold hundredths. destruct (0 <=? e) eqn:He.
  - apply Z.leb_le in He.
    pose proof (Z.pow_pos_nonneg 2 e ltac:(lia) He). nia.
  - apply Z.leb_gt in He.
    assert (Hden : 0 < 2 ^ (- e)) by (apply Z.pow_pos_nonneg; lia).
    unfold round_half_even.
    pose proof (Z.div_pos (100 * Z.pos m) (2 ^ (- e)) ltac:(lia) Hden).
    destruct (_ ?= _); [destruct (Z.even _)| |]; lia.
Qed.

Lemma hundredths_nearest (m : positive) (e : Z) :
  nearest_hundredths m e (hundredths m e).
Proof.
  unfold nearest_hundredths, hundredths. cbv zeta.
  destruct (0 <=? e) eqn:He.
  - apply Z.leb_le in He.
    rewrite (Z.max_l e 0), (Z.max_r (- e) 0) by lia.
    rewrite Z.pow_0_r. split; [lia|]. lia.
  - apply Z.leb_gt in He.
    rewrite (Z.max_r e 0), (Z.max_l (- e) 0) by lia.
    rewrite Z.pow_0_r, Z.mul_1_r.
    apply round_half_even_nearest. apply Z.pow_pos_nonneg; lia.
Qed.

(** The decimal numeral of a natural number. *)
Lemma number_of_dec (n : Z) : 0 ≤ n → number_of (dec n) = Some n.
Proof.
  intros Hn. unfold number_of, dec.
  rewrite NilEmpty.usu, DecimalN.Unsigned.of_to. by rewrite Z2N.id.
Qed.

Lemma string_of_uint_nil (d : Decimal.uint) :
  NilEmpty.string_of_uint d = EmptyString → d = Decimal.Nil.
Proof. by destruct d. Qed.

Lemma unorm_leading_zero (d : Decimal.uint) :
  Decimal.unorm (Decimal.D0 d) = Decimal.D0 d → d = Decimal.Nil.
Proof.
  intros Hd. assert (d = Decimal.Nil ∨ d ≠ Decimal.Nil) as [|Hne]
    by (destruct d; auto); [done|].
  rewrite DecimalFacts.unorm_D0 in Hd.
  pose proof (DecimalFacts.nb_digits_unorm d Hne) as Hle.
  rewrite Hd in Hle. simpl in Hle. lia.
Qed.

Lemma dec_numeral (n : Z) : 0 ≤ n → numeral (dec n) n.
Proof.
  intros Hn. split; [by apply number_of_dec|].
  assert (Hnorm : Decimal.unorm (N.to_uint (Z.to_N n)) = N.to_uint (Z.to_N n)).
  { rewrite <- DecimalN.Unsigned.to_of.
    by rewrite DecimalN.Unsigned.of_to. }
  unfold dec. split.
  - intros Hnil%string_of_uint_nil. rewrite Hnil in Hnorm. discriminate Hnorm.
  - destruct (N.to_uint (Z.to_N n)) as [|d|d|d|d|d|d|d|d|d|d]; try done.
    intros _. by rewrite (unorm_leading_zero d Hnorm).
Qed.

Lemma two_digits_number (r : Z) :
  0 ≤ r < 100 →
  String.length (two_digits r) = 2%nat ∧ number_of (two_digits r) = Some r.
Proof.
  intros Hr.
  assert (Hall :
    forallb (λ k, (String.length (two_digits (Z.of_nat k)) =? 2)%nat
                  && match number_of (two_digits (Z.of_nat k)) with
                     | Some v => v =? Z.of_nat k
                     | None => false
                     end)
      (seq 0 100) = true) by (vm_compute; reflexivity).
  rewrite forallb_forall in Hall.
  specialize (Hall (Z.to_nat r)). rewrite Z2Nat.id in Hall by lia.
  destruct (andb_prop _ _ (Hall ltac:(apply in_seq; lia))) as [Hlen Hnum].
  split; [by apply Nat.eqb_eq in Hlen|].
  destruct (number_of _) as [v|]; [|done]. by apply Z.eqb_eq in Hnum as ->.
Qed.

(** [format_2f] is the format of the specification: the sign, and the
    number of hundredths nearest to the value. *)
Lemma format_2f_correct (x : float) : two_decimals x (format_2f x).
Proof.
  unfold two_decimals, format_2f.
  destruct (Prim2SF x) as [s|s| |s m e];
    [by destruct s | by destruct s | done |].
  pose proof (hundredths_nonneg m e) as Hq.
  pose proof (Z.mod_pos_bound (hundredths m e) 100 ltac:(lia)) as Hf.
  destruct (two_digits_number _ Hf) as [Hlen Hnum].
  exists (dec (hundredths m e / 100)), (two_digits (hundredths m e mod 100)),
    (hundredths m e / 100), (hundredths m e mod 100).
  split; [by destruct s|].
  split; [apply dec_numeral; by apply Z.div_pos|].
  split; [done|]. split; [done|].
  rewrite <- Z.div_mod by lia. apply hundredths_nearest.
Qed.

(** ** The lines of a text *)

Lemma has_newline_app (s t : string) :
  has_newline (s +:+ t) = has_newline s || has_newline t.
Proof.
  induction s as [|c s IH]; [done|]. simpl. by rewrite IH, orb_assoc.
Qed.

Lemma has_newline_digits (s : string) :
  all_digits s = true → has_newline s = false.
Proof.
  induction s as [|c s IH]; [done|]. simpl.
  intros [Hc Hs]%andb_prop. rewrite (IH Hs), orb_false_r.
  apply Ascii.eqb_neq. intros ->. discriminate Hc.
Qed.

Lemma has_newline_format_2f (x : float) : has_newline (format_2f x) = false.
Proof.
  unfold format_2f, fixed2.
  destruct (Prim2SF x) as [s|s| |s m e];
    [by destruct s | by destruct s | done |].
  pose proof (Z.mod_pos_bound (hundredths m e) 100 ltac:(lia)) as Hf.
  destruct (two_digits_spec _ Hf) as [_ Hdig].
  rewrite !has_newline_app.
  rewrite (has_newline_digits (dec _)) by apply all_digits_string_of_uint.
  rewrite (has_newline_digits _ Hdig). by destruct s.
Qed.

Lemma has_newline_join (sep : string) (l : list string) :
  has_newline sep = false → Forall (λ a, has_newline a = false) l →
  has_newline (String.concat sep l) = false.
Proof.
  intros Hsep Hl. induction Hl as [|a l Ha Hl IH]; [done|].
  destruct l as [|b l]; [done|].
  change (String.concat sep (a :: b :: l))
    with (a +:+ sep +:+ String.concat sep (b :: l)).
  by rewrite !has_newline_app, Ha, Hsep, IH.
Qed.

Lemma has_newline_line_of (o : ResolutionOutcome) :
  on_one_line o → has_newline (line_of o) = false.
Proof.
  intros [Hc Ha]. unfold line_of, result_line, join.
  rewrite !has_newline_app, Hc, has_newline_format_2f.
  by rewrite has_newline_join.
Qed.

Lemma append_empty_r (s : string) : s +:+ EmptyString = s.
Proof.
  induction s as [|c s IH]; [done|].
  change (String c (s +:+ EmptyString) = String c s). by rewrite IH.
Qed.

Lemma append_snoc (s t : string) (c : ascii) :
  (s +:+ String c EmptyString) +:+ t = s +:+ String c t.
Proof.
  induction s as [|d s IH]; [done|].
  change (String d ((s +:+ String c EmptyString) +:+ t)
          = String d (s +:+ String c t)).
  by rewrite IH.
Qed.

Lemma lines_from_line (cur l rest : string) :
  has_newline l = false →
  lines_from cur (l +:+ nl +:+ rest)
  = (cur +:+ l) :: lines_from EmptyString rest.
Proof.
  revert cur. induction l as [|c l IH]; intros cur Hl.
  - simpl. by rewrite append_empty_r.
  - simpl in Hl. apply orb_false_elim in Hl as [Hc Hl].
    change (lines_from cur (String c l +:+ nl +:+ rest))
      with (if Ascii.eqb c "010" then cur :: lines_from EmptyString
                                                (l +:+ nl +:+ rest)
            else lines_from (cur +:+ String c EmptyString)
                   (l +:+ nl +:+ rest)).
    rewrite Hc, IH by done. by rewrite append_snoc.
Qed.

(** Reading the written text back gives the lines that were written,
    as long as none of them holds a newline of its own. *)
Lemma text_lines_file_text (ls : list string) :
  Forall (λ l, has_newline l = false) ls →
  text_lines (file_text ls) = ls.
Proof.
  unfold text_lines, file_text.
  induction 1 as [|l ls Hl _ IH]; [done|].
  rewrite fmap_cons.
  destruct ls as [|l' ls].
  - simpl.
    replace (l +:+ nl) with (l +:+ nl +:+ EmptyString)
      by (by rewrite append_empty_r).
    by rewrite lines_from_line.
  - rewrite fmap_cons in *.
    set (rest := String.concat EmptyString _) in *.
    change (lines_from EmptyString ((l +:+ nl) +:+ EmptyString +:+ rest)
            = l :: l' :: ls).
    replace ((l +:+ nl) +:+ EmptyString +:+ rest) with (l +:+ nl +:+ rest).
    + rewrite lines_from_line by done. by rewrite IH.
    + change (EmptyString +:+ rest) with rest. clear.
      induction l as [|c l IHl]; [done|].
      change (String c (l +:+ nl +:+ rest) = String c ((l +:+ nl) +:+ rest)).
      by rewrite IHl.
Qed.

(** ** Candidate generation *)

Lemma truthy_str_iff (s : string) : truthy_str s ↔ s ≠ EmptyString.
Proof. destruct s; simpl; split; try done. Qed.

Lemma filter_truthy_id (l : list string) :
  Forall (λ w, w ≠ EmptyString) l →
  filter (λ w, truthy_str w) l = l.
Proof.
  induction 1 as [|w l Hw _ IH]; [done|].
  rewrite filter_cons_True by (by apply truthy_str_iff). by rewrite IH.
Qed.

Lemma length_append (s t : string) :
  String.length (s +:+ t) = (String.length s + String.length t)%nat.
Proof. induction s as [|a s IH]; simpl; [done | by rewrite IH]. Qed.

Lemma append_inj_l (s t u : string) : s +:+ u = t +:+ u → s = t.
Proof.
  intros H.
  assert (Hlen : String.length s = String.length t).
  { apply (f_equal String.length) in H.
    rewrite !length_append in H. lia. }
  revert t H Hlen. induction s as [|a s IH]; intros [|b t] H Hlen;
    simpl in *; try done.
  injection H as -> H. f_equal. apply IH; [done | lia].
Qed.

Lemma candidate_inj (d : string) : Inj (=) (=) (λ w, w +:+ "." +:+ d).
Proof. intros w1 w2 H. by apply append_inj_l in H. Qed.

Lemma count_occ_fmap_inj {A B} (da : ∀ x y : A, {x = y} + {x ≠ y})
    (db : ∀ x y : B, {x = y} + {x ≠ y}) (f : A → B) `{!Inj (=) (=) f}
    (l : list A) (x : A) :
  count_occ db (f <$> l) (f x) = count_occ da l x.
Proof.
  induction l as [|y l IH]; [done|]. rewrite fmap_cons. cbn [count_occ].
  destruct (da y x) as [->|Hne].
  - destruct (db (f x) (f x)); [by rewrite IH | done].
  - destruct (db (f y) (f x)) as [Heq|_]; [|done].
    by apply (inj f) in Heq.
Qed.

(** ** Batching: [range] and slices for a positive step *)

Lemma ceil_div_bounds (a b : Z) :
  0 < b → (ceil_div a b - 1) * b < a ≤ ceil_div a b * b.
Proof.
  intros Hb. unfold ceil_div.
  pose proof (Z.div_mod (a + b - 1) b ltac:(lia)).
  pose proof (Z.mod_pos_bound (a + b - 1) b Hb). nia.
Qed.

Lemma ceil_div_unique (a b q : Z) :
  0 < b → (q - 1) * b < a ≤ q * b → ceil_div a b = q.
Proof.
  intros Hb Hq. pose proof (ceil_div_bounds a b Hb). nia.
Qed.

Lemma range_len_pos (stop step : Z) :
  0 < step → 0 ≤ stop → range_len 0 stop step = ceil_div stop step.
Proof.
  intros Hs Hl. unfold range_len.
  rewrite (proj2 (Z.ltb_lt 0 step)) by done.
  destruct (Z.ltb_spec 0 stop).
  - symmetry. apply ceil_div_unique; [done|].
    pose proof (Z.div_mod (stop - 0 - 1) step ltac:(lia)).
    pose proof (Z.mod_pos_bound (stop - 0 - 1) step Hs). nia.
  - symmetry. apply ceil_div_unique; lia.
Qed.

Lemma slice_chunk {A} (l : list A) (n : Z) (k : nat) :
  0 < n → Z.of_nat k * n ≤ Z.of_nat (length l) →
  slice l (0 + Z.of_nat k * n) (0 + Z.of_nat k * n + n)
  = chunk (Z.to_nat n) l k.
Proof.
  intros Hn Hk. unfold slice, chunk, clamp.
  rewrite !(proj2 (Z.ltb_ge _ 0)) by lia.
  replace (Z.to_nat (Z.min (0 + Z.of_nat k * n) (Z.of_nat (length l))))
    with (k * Z.to_nat n)%nat by lia.
  set (d := drop (k * Z.to_nat n) l).
  assert (Hd : length d = (length l - k * Z.to_nat n)%nat)
    by (unfold d; apply length_drop).
  destruct (Z.le_ge_cases (0 + Z.of_nat k * n + n) (Z.of_nat (length l))).
  - f_equal. lia.
  - rewrite !take_ge; [done | lia | lia].
Qed.

Lemma concat_chunks {A} (n : nat) (l : list A) (g : nat) :
  concat (chunk n l <$> seq 0 g) = take (g * n) l.
Proof.
  induction g as [|g IH]; [by rewrite take_0|].
  rewrite seq_S, fmap_app, concat_app, IH. simpl.
  rewrite app_nil_r. unfold chunk.
  rewrite take_take_drop. f_equal. lia.
Qed.

Lemma length_chunk {A} (n : nat) (l : list A) (k : nat) :
  length (chunk n l k) = (n `min` (length l - k * n))%nat.
Proof. unfold chunk. by rewrite length_take, length_drop. Qed.

(** For a positive step, the groups of [scan] are the [chunk]s numbered
    from 0 to the rounded-up quotient. *)
Lemma batches_chunks (n : Z) (l : list string) :
  1 ≤ n →
  batches n l =
    Return (chunk (Z.to_nat n) l <$>
              seq 0 (Z.to_nat (ceil_div (Z.of_nat (length l)) n))).
Proof.
  intros Hn. unfold batches, range.
  rewrite (proj2 (Z.eqb_neq n 0)) by lia.
  rewrite range_len_pos by lia.
  f_equal. rewrite <- list_fmap_compose.
  apply list_fmap_ext. intros i k [-> Hk]%lookup_seq. simpl.
  apply slice_chunk; [lia|].
  pose proof (ceil_div_bounds (Z.of_nat (length l)) n ltac:(lia)). nia.
Qed.

Lemma chunks_concat {A} (n : Z) (l : list A) :
  1 ≤ n →
  concat (chunk (Z.to_nat n) l <$>
            seq 0 (Z.to_nat (ceil_div (Z.of_nat (length l)) n))) = l.
Proof.
  intros Hn. rewrite concat_chunks. apply take_ge.
  pose proof (ceil_div_bounds (Z.of_nat (length l)) n ltac:(lia)). nia.
Qed.

Lemma chunks_lookup {A} (n : Z) (l : list A) (i : nat) (g : list A) :
  1 ≤ n →
  (chunk (Z.to_nat n) l <$>
     seq 0 (Z.to_nat (ceil_div (Z.of_nat (length l)) n))) !! i = Some g →
  (1 ≤ length g ≤ Z.to_nat n)%nat ∧
  ((S i < Z.to_nat (ceil_div (Z.of_nat (length l)) n))%nat →
   length g = Z.to_nat n).
Proof.
  intros Hn. rewrite list_lookup_fmap_Some.
  intros (k & -> & [-> Hk]%lookup_seq). rewrite length_chunk. simpl.
  pose proof (ceil_div_bounds (Z.of_nat (length l)) n ltac:(lia)).
  split; [nia|]. intros Hlast. nia.
Qed.

Lemma chunks_single {A} (n : Z) (l : list A) :
  (1 ≤ length l)%nat → Z.of_nat (length l) ≤ n →
  chunk (Z.to_nat n) l <$>
    seq 0 (Z.to_nat (ceil_div (Z.of_nat (length l)) n)) = [l].
Proof.
  intros Hl Hn.
  rewrite (ceil_div_unique (Z.of_nat (length l)) n 1) by lia.
  simpl. unfold chunk. rewrite drop_0, take_ge by lia. done.
Qed.

(** ** What a run adds to the state *)

Lemma answers_app (t1 t2 : list event) :
  answers (t1 ++ t2) = answers t1 ++ answers t2.
Proof. apply omap_app. Qed.

Lemma asks_app (t1 t2 : list event) : asks (t1 ++ t2) = asks t1 ++ asks t2.
Proof. apply omap_app. Qed.

Lemma answers_cons (e : event) (tr : list event) :
  answers (e :: tr)
  = match e with Answered o => o :: answers tr | Asked _ => answers tr end.
Proof. by destruct e. Qed.

Lemma asks_cons (e : event) (tr : list event) :
  asks (e :: tr)
  = match e with Asked s => s :: asks tr | Answered _ => asks tr end.
Proof. by destruct e. Qed.

Lemma answers_Asked (l : list string) : answers (Asked <$> l) = [].
Proof. induction l; [done|]. by rewrite fmap_cons, answers_cons. Qed.

Lemma asks_Asked (l : list string) : asks (Asked <$> l) = l.
Proof.
  induction l as [|x l IH]; [done|]. by rewrite fmap_cons, asks_cons, IH.
Qed.

Lemma answers_Answered (os : list ResolutionOutcome) :
  answers (Answered <$> os) = os.
Proof.
  induction os as [|o os IH]; [done|].
  by rewrite fmap_cons, answers_cons, IH.
Qed.

Lemma asks_Answered (os : list ResolutionOutcome) :
  asks (Answered <$> os) = [].
Proof. induction os; [done|]. by rewrite fmap_cons, asks_cons. Qed.

Lemma collected_app (o1 o2 : list ResolutionOutcome) :
  collected (o1 ++ o2) = collected o1 ++ collected o2.
Proof. apply filter_app. Qed.

Lemma delta_refl (st : State) : delta [] st st.
Proof.
  split; simpl; rewrite ?app_nil_r; try done; lia.
Qed.

Lemma delta_trans (t1 t2 : list event) (st st1 st2 : State) :
  delta t1 st st1 → delta t2 st1 st2 → delta (t1 ++ t2) st st2.
Proof.
  intros [Ht Hr Hc Hs Hto Hf Ha] [Ht' Hr' Hc' Hs' Hto' Hf' Ha']. split.
  - rewrite Ht', Ht. by rewrite app_assoc.
  - rewrite Hr', Hr, answers_app, collected_app, fmap_app.
    by rewrite app_assoc.
  - rewrite Hc', Hc, answers_app, length_app. lia.
  - rewrite Hs', Hs, Hc, answers_app, length_app.
    rewrite seq_app, fmap_app, <- app_assoc. do 2 f_equal.
    replace (1 + length (answers t1))%nat
      with (length (answers t1) + 1)%nat by lia.
    rewrite <- fmap_add_seq, <- list_fmap_compose. apply list_fmap_ext.
    intros i k _. simpl. lia.
  - congruence.
  - congruence.
  - rewrite Ha', Ha, asks_app, length_app. lia.
Qed.

(** ** The shape of the trace of a batch and of a run *)

Lemma expected_names (env : Env) (q : nat) (names : list string) :
  (expected env q names).*1 = names.
Proof.
  revert q. induction names as [|name names IH]; intros q; [done|].
  simpl. by rewrite IH.
Qed.

Lemma expected_length (env : Env) (q : nat) (names : list string) :
  length (expected env q names) = length names.
Proof. by rewrite <- (expected_names env q names) at 2; rewrite length_fmap. Qed.

Lemma expected_app (env : Env) (q : nat) (l1 l2 : list string) :
  expected env q (l1 ++ l2)
  = expected env q l1 ++ expected env (q + length l1) l2.
Proof.
  revert q. induction l1 as [|x l1 IH]; intros q; simpl.
  - by rewrite Nat.add_0_r.
  - rewrite IH. do 3 f_equal. lia.
Qed.

Lemma summary_candidates (os : list ResolutionOutcome) :
  (summary <$> os).*1 = candidate <$> os.
Proof. by rewrite <- list_fmap_compose. Qed.

Lemma batch_done_facts (env : Env) (q : nat) (g : list string)
    (tr : list event) :
  batch_done env q g tr →
  asks tr = g ∧ summary <$> answers tr ≡ₚ expected env q g.
Proof.
  intros (os & -> & Hos).
  rewrite asks_app, answers_app, asks_Asked, asks_Answered.
  rewrite answers_Asked, answers_Answered, app_nil_r. done.
Qed.


(** The outcomes of groups completed in order are those of all their
    candidates, each with the answer to its own query. *)
Lemma in_order_answers (env : Env) (q : nat) (groups : list (list string))
    (tr : list event) :
  in_order env q groups tr →
  asks tr = concat groups
  ∧ summary <$> answers tr ≡ₚ expected env q (concat groups).
Proof.
  revert q tr. induction groups as [|g groups IH]; intros q tr; simpl.
  - by intros ->.
  - intros (tr1 & tr2 & -> & Hg & Hrest).
    apply batch_done_facts in Hg as [Hg1 Hg2].
    apply IH in Hrest as [IH1 IH2].
    rewrite asks_app, answers_app, fmap_app, expected_app.
    by rewrite Hg1, IH1, Hg2, IH2.
Qed.

Lemma in_order_facts (env : Env) (q : nat) (groups : list (list string))
    (tr : list event) :
  in_order env q groups tr →
  asks tr = concat groups ∧ candidate <$> answers tr ≡ₚ concat groups.
Proof.
  intros [Hasks Hans]%in_order_answers. split; [done|].
  by rewrite <- summary_candidates, Hans, expected_names.
Qed.

Lemma in_order_app (env : Env) (q : nat) (done rest : list (list string))
    (tr1 tr2 : list event) :
  in_order env q done tr1 →
  in_order env (q + length (concat done)) rest tr2 →
  in_order env q (done ++ rest) (tr1 ++ tr2).
Proof.
  revert q tr1. induction done as [|g done IH]; intros q tr1; simpl.
  - intros ->. by rewrite Nat.add_0_r.
  - intros (t1 & t2 & -> & Hg & Hdone) Hrest.
    exists t1, (t2 ++ tr2). split; [by rewrite app_assoc|]. split; [done|].
    apply IH; [done|]. by rewrite length_app, Nat.add_assoc in Hrest.
Qed.


(** ** Queries in flight *)

Lemma in_flight_app (t1 t2 : list event) :
  in_flight (t1 ++ t2) = in_flight t1 + in_flight t2.
Proof. unfold in_flight. rewrite asks_app, answers_app, !length_app. lia. Qed.

Lemma in_flight_batch_take (g : list string) (os : list ResolutionOutcome)
    (n : nat) :
  (length os ≤ length g)%nat →
  0 ≤ in_flight (take n ((Asked <$> g) ++ (Answered <$> os)))
    ≤ Z.of_nat (length g).
Proof.
  intros Hle. rewrite take_app, <- !fmap_take, in_flight_app. unfold in_flight.
  rewrite asks_Asked, answers_Asked, asks_Answered, answers_Answered.
  rewrite length_fmap, !length_take. simpl. lia.
Qed.

Lemma batch_done_in_flight (env : Env) (q : nat) (g : list string)
    (tr : list event) :
  batch_done env q g tr →
  in_flight tr = 0
  ∧ ∀ n, 0 ≤ in_flight (take n tr) ≤ Z.of_nat (length g).
Proof.
  intros Hdone. pose proof (batch_done_facts _ _ _ _ Hdone) as [Hasks Hans].
  destruct Hdone as (os & -> & Hos).
  apply Permutation_length in Hos.
  rewrite length_fmap, expected_length in Hos.
  split.
  - rewrite in_flight_app. unfold in_flight.
    rewrite asks_Asked, answers_Asked, asks_Answered, answers_Answered.
    simpl. lia.
  - intros n. apply in_flight_batch_take. lia.
Qed.

Lemma batch_cut_in_flight (env : Env) (q : nat) (g : list string)
    (tr : list event) :
  batch_cut env q g tr →
  ∀ n, 0 ≤ in_flight (take n tr) ≤ Z.of_nat (length g).
Proof.
  intros (os & rest & -> & _ & Hos) n.
  apply Permutation_length in Hos.
  rewrite length_app, length_fmap, expected_length in Hos.
  apply in_flight_batch_take. lia.
Qed.

(** While groups of at most [N] candidates run in order, never more than
    [N] queries are in flight, and none is when the groups are done. *)
Lemma in_order_in_flight (env : Env) (N : Z) (q : nat)
    (groups : list (list string)) (tr : list event) :
  0 ≤ N →
  Forall (λ g, Z.of_nat (length g) ≤ N) groups →
  in_order env q groups tr →
  in_flight tr = 0 ∧ ∀ n, 0 ≤ in_flight (take n tr) ≤ N.
Proof.
  intros HN Hall. revert q tr.
  induction Hall as [|g groups Hg _ IH]; intros q tr; simpl.
  - intros ->. split; [done|]. intros n. by rewrite take_nil.
  - intros (t1 & t2 & -> & [H1 H1']%batch_done_in_flight & [H2 H2']%IH).
    split; [rewrite in_flight_app; lia|].
    intros n. rewrite take_app, in_flight_app.
    destruct (Nat.le_gt_cases n (length t1)) as [Hn|Hn].
    + replace (n - length t1)%nat with 0%nat by lia.
      rewrite take_0. specialize (H1' n). change (in_flight []) with 0. lia.
    + rewrite take_ge by lia. specialize (H2' (n - length t1)%nat). lia.
Qed.

Lemma cut_short_in_flight (env : Env) (N : Z) (q : nat)
    (groups : list (list string)) (tr : list event) :
  0 ≤ N →
  Forall (λ g, Z.of_nat (length g) ≤ N) groups →
  cut_short env q groups tr →
  ∀ n, 0 ≤ in_flight (take n tr) ≤ N.
Proof.
  intros HN Hall (done & g & rest & t1 & t2 & -> & -> & Hdone & Hcut) n.
  apply Forall_app in Hall as [Hall1 Hall2].
  apply Forall_cons in Hall2 as [Hg _].
  apply (in_order_in_flight env N q done t1 HN Hall1) in Hdone as [H1 H1'].
  pose proof (batch_cut_in_flight _ _ _ _ Hcut) as H2.
  rewrite take_app, in_flight_app.
  destruct (Nat.le_gt_cases n (length t1)) as [Hn|Hn].
  - replace (n - length t1)%nat with 0%nat by lia.
    rewrite take_0. specialize (H1' n). change (in_flight []) with 0. lia.
  - rewrite take_ge by lia. specialize (H2 (n - length t1)%nat). lia.
Qed.


(** ** Outcomes the console renders *)

Lemma counted_app (env : Env) (o1 o2 : list ResolutionOutcome) :
  counted env (o1 ++ o2) = counted env o1 ++ counted env o2.
Proof. apply filter_app. Qed.

Lemma counted_all (env : Env) (os : list ResolutionOutcome) :
  Forall (λ o, rendered env o = true) os → counted env os = os.
Proof.
  induction 1 as [|o os Ho _ IH]; [done|]. unfold counted in *.
  rewrite filter_cons_True by (by rewrite Ho). by rewrite IH.
Qed.

Lemma rejected_rendered (env : Env) (o : ResolutionOutcome) (m : string) :
  rejected env o m → rendered env o = false.
Proof.
  intros [Ha Hm]. unfold rendered. rewrite Hm. by destruct (addresses o).
Qed.

Lemma rendered_false (env : Env) (o : ResolutionOutcome) :
  rendered env o = false → ∃ m, rejected env o m.
Proof.
  unfold rendered, rejected.
  destruct (addresses o); [done|].
  destruct (markup_error env _) as [m|]; [|done]. intros _. by exists m.
Qed.

Lemma counted_snoc_rejected (env : Env) (os : list ResolutionOutcome)
    (o : ResolutionOutcome) (m : string) :
  Forall (λ o, rendered env o = true) os → rejected env o m →
  counted env (os ++ [o]) = os.
Proof.
  intros Hos Hrej. rewrite counted_app, (counted_all _ _ Hos).
  unfold counted. rewrite filter_cons_False, filter_nil, app_nil_r; [done|].
  rewrite (rejected_rendered _ _ _ Hrej). by intros [].
Qed.


Lemma left_in_in_flight (env : Env) (N : Z) (q : nat)
    (groups : list (list string)) (tr : list event) :
  0 ≤ N →
  Forall (λ g, Z.of_nat (length g) ≤ N) groups →
  left_in env q groups tr →
  ∀ n, 0 ≤ in_flight (take n tr) ≤ N.
Proof.
  intros HN Hall [[k Hord] | Hcut].
  - apply (in_order_in_flight env N q (take k groups) tr HN); [|done].
    by apply Forall_take.
  - by apply (cut_short_in_flight env N q groups).
Qed.

Lemma cut_short_cons (env : Env) (q : nat) (g : list string)
    (groups : list (list string)) (tr1 tr2 : list event) :
  batch_done env q g tr1 →
  cut_short env (q + length g) groups tr2 →
  cut_short env q (g :: groups) (tr1 ++ tr2).
Proof.
  intros Hdone (done & g' & rest & t1 & t2 & -> & -> & Hord & Hc).
  exists (g :: done), g', rest, (tr1 ++ t1), t2.
  split; [done|]. split; [by rewrite app_assoc|]. split.
  - by exists tr1, t1.
  - simpl. by rewrite length_app, Nat.add_assoc.
Qed.

Lemma cut_short_here (env : Env) (q : nat) (g : list string)
    (groups : list (list string)) (tr : list event) :
  batch_cut env q g tr → cut_short env q (g :: groups) tr.
Proof.
  intros Hcut. exists [], g, groups, [], tr.
  split; [done|]. split; [done|]. split; [done|].
  simpl. by rewrite Nat.add_0_r.
Qed.

Lemma left_in_cons (env : Env) (q : nat) (g : list string)
    (groups : list (list string)) (tr1 tr2 : list event) :
  batch_done env q g tr1 →
  left_in env (q + length g) groups tr2 →
  left_in env q (g :: groups) (tr1 ++ tr2).
Proof.
  intros Hdone [[k Hord] | Hcut].
  - left. exists (S k). simpl. by exists tr1, tr2.
  - right. by apply cut_short_cons.
Qed.

Lemma left_in_here (env : Env) (q : nat) (g : list string)
    (groups : list (list string)) (tr : list event) :
  batch_done env q g tr ∨ batch_cut env q g tr →
  left_in env q (g :: groups) tr.
Proof.
  intros [Hdone | Hcut].
  - left. exists 1%nat. cbn [take]. destruct groups; simpl;
      exists tr, []; by rewrite app_nil_r.
  - right. by apply cut_short_here.
Qed.

Lemma in_order_left_in (env : Env) (q : nat) (groups : list (list string))
    (tr : list event) :
  in_order env q groups tr → left_in env q groups tr.
Proof. intros Hord. left. exists (length groups). by rewrite firstn_all. Qed.

(** ** The coroutines of a batch *)

Section Run.

Variable env : Env.

Lemma start_spec (subdomain : string) (st : State) :
  ∃ t st',
    resolve_subdomain_start env subdomain st = (Return t, st')
    ∧ (t_subdomain t = subdomain ∧ t_query t = asked st)
    ∧ delta [Asked subdomain] st st'.
Proof.
  eexists _, _. split; [reflexivity|]. split; [done|].
  split; simpl; rewrite ?app_nil_r; try done; lia.
Qed.

Lemma starts_spec (batch : list string) (st : State) :
  ∃ pending st',
    map_m (resolve_subdomain_start env) batch st = (Return pending, st')
    ∧ task_summary env <$> pending = expected env (asked st) batch
    ∧ delta (Asked <$> batch) st st'.
Proof.
  revert st. induction batch as [|s batch IH]; intros st.
  - exists [], st. split; [done|]. split; [done|]. apply delta_refl.
  - destruct (start_spec s st) as (t & st1 & Ht & (Hs & Hq) & Hd).
    destruct (IH st1) as (pending & st2 & Hp & Hb & Hd').
    exists (t :: pending), st2. split; [|split].
    + simpl. unfold bind at 1. rewrite Ht.
      unfold bind at 1. by rewrite Hp.
    + rewrite fmap_cons, Hb. simpl. unfold task_summary.
      rewrite Hs, Hq. do 2 f_equal.
      destruct Hd as [_ _ _ _ _ _ Ha]. rewrite Ha. simpl. lia.
    + rewrite fmap_cons. apply (delta_trans [_] _ _ _ _ Hd Hd').
Qed.

(** A resumed coroutine runs to its end, which records the outcome of
    its candidate; or it is left by an exception that is not an
    [Exception], before it changed anything; or it is left by the
    console, which rejects the line of its outcome: the answer is noted,
    and nothing is printed, collected or counted. *)
Lemma resume_spec (t : task) (st : State) (r : outcome unit) (st' : State) :
  resolve_subdomain_resume env t st = (r, st') →
  (r = Return tt ∧ delta [Answered (outcome_of env t st)] st st'
   ∧ rendered env (outcome_of env t st) = true)
  ∨ (∃ e, r = Raise e ∧ is_Exception e = false ∧ st' = st)
  ∨ (∃ m, r = Raise (OtherException m)
          ∧ rejected env (outcome_of env t st) m
          ∧ halted (outcome_of env t st) st st').
Proof.
  unfold resolve_subdomain_resume, outcome_of, rejected, rendered, halted,
    console_of, bind.
  destruct (gethostbyname env (t_query t)) as [[|a addrs]|e]; simpl.
  - intros [= <- <-]. left. split; [done|]. split; [|done].
    split; simpl; rewrite ?app_nil_r; try done; lia.
  - unfold console_print_f.
    destruct (markup_error env _) as [m|]; simpl.
    + intros [= <- <-]. right. right. by exists m.
    + intros [= <- <-]. left. split; [done|]. split; [|done].
      split; simpl; rewrite ?app_nil_r; try done; lia.
  - destruct e; simpl; intros [= <- <-];
      first [ left; split; [done|]; split; [|done];
              split; simpl; rewrite ?app_nil_r; try done; lia
            | right; left; eexists; done ].
Qed.

Lemma decide_spec (st : State) :
  delta [] st (set_steps (S (steps st)) st).
Proof. split; simpl; rewrite ?app_nil_r; try done; lia. Qed.

Lemma run_pending_step (fuel : nat) (pending : list task) (st : State) :
  pending ≠ [] →
  run_pending env (S fuel) pending st =
    let st1 := set_steps (S (steps st)) st in
    match schedule env (steps st) with
    | Interrupt => (Raise KeyboardInterrupt, st1)
    | Complete k =>
        let i := (k mod length pending)%nat in
        match pending !! i with
        | Some t =>
            match resolve_subdomain_resume env t st1 with
            | (Return _, st2) => run_pending env fuel (delete i pending) st2
            | (Raise e, st2) => (Raise e, st2)
            end
        | None => (Return tt, st1)
        end
    end.
Proof.
  destruct pending as [|t0 pending]; [done|]. intros _.
  cbn [run_pending]. unfold bind at 1.
  destruct (schedule env (steps st)); [|reflexivity].
  destruct (_ !! _); reflexivity.
Qed.

(** The event loop on the pending coroutines of a batch: the outcomes
    it records are those of distinct pending coroutines; all of them
    when it returns, not all of them when an exception that is not an
    [Exception] ends it; when the console rejects the line of an
    outcome, that outcome is the last one. *)
Lemma run_pending_spec (fuel : nat) (pending : list task) (st : State)
    (r : outcome unit) (st' : State) :
  (length pending ≤ fuel)%nat →
  run_pending env fuel pending st = (r, st') →
  ∃ os,
    Forall (λ o, rendered env o = true) os
    ∧ ((delta (Answered <$> os) st st'
        ∧ ((r = Return tt ∧ summary <$> os ≡ₚ task_summary env <$> pending)
           ∨ (∃ e rest, r = Raise e ∧ is_Exception e = false ∧ rest ≠ []
                ∧ (summary <$> os) ++ rest ≡ₚ task_summary env <$> pending)))
       ∨ (∃ m o st1 rest,
            r = Raise (OtherException m) ∧ rejected env o m
            ∧ delta (Answered <$> os) st st1 ∧ halted o st1 st'
            ∧ (summary <$> os) ++ summary o :: rest
                ≡ₚ task_summary env <$> pending)).
Proof.
  revert pending st. induction fuel as [|fuel IH]; intros pending st Hlen.
  { destruct pending; [|simpl in Hlen; lia].
    intros [= <- <-]. exists []. split; [done|]. left.
    split; [apply delta_refl | by left]. }
  destruct (decide (pending = [])) as [->|Hp].
  { intros [= <- <-]. exists []. split; [done|]. left.
    split; [apply delta_refl | by left]. }
  assert (Hpos : (0 < length pending)%nat)
    by (destruct pending; [done | simpl; lia]).
  rewrite run_pending_step by done. cbv zeta.
  destruct (schedule env (steps st)) as [k|].
  - destruct (lookup_lt_is_Some_2 pending (k mod length pending)%nat)
      as [t Ht]; [apply Nat.mod_upper_bound; lia|].
    rewrite Ht.
    pose proof (delete_Permutation _ _ _ Ht) as Hperm.
    apply (fmap_Permutation (task_summary env)) in Hperm.
    rewrite fmap_cons in Hperm.
    destruct (resolve_subdomain_resume env t _) as [r1 st1] eqn:Hres.
    apply resume_spec in Hres
      as [(-> & Hd & Hren) | [(e & -> & He & ->) | (m & -> & Hrej & Hhalt)]].
    + intros Hrun. apply IH in Hrun as (os & Hall & Hcase).
      2:{ rewrite length_delete by eauto. lia. }
      set (o := outcome_of env t _) in Hd, Hren.
      assert (Ho : summary o = task_summary env t) by done.
      assert (Hstep : ∀ st2, delta (Answered <$> os) st1 st2 →
                             delta (Answered <$> o :: os) st st2).
      { intros st2 Hd'. rewrite fmap_cons.
        apply (delta_trans [] (_ :: _) _ _ _ (decide_spec st)).
        apply (delta_trans [_] _ _ _ _ Hd Hd'). }
      exists (o :: os). split; [by constructor|].
      destruct Hcase
        as [[Hd' Hcase] | (m & o' & st2 & rest & -> & Hrej & Hd' & Hh & Hos)].
      * left. split; [by apply Hstep|].
        destruct Hcase as [(-> & Hos) | (e & rest & -> & He & Hrest & Hos)].
        -- left. split; [done|]. rewrite fmap_cons, Ho, Hos. by symmetry.
        -- right. exists e, rest. split; [done|]. split; [done|].
           split; [done|]. rewrite fmap_cons, Ho. simpl. rewrite Hos.
           by symmetry.
      * right. exists m, o', st2, rest. split; [done|]. split; [done|].
        split; [by apply Hstep|]. split; [done|].
        rewrite fmap_cons, Ho. simpl. rewrite Hos. by symmetry.
    + intros [= <- <-]. exists []. split; [done|]. left.
      split; [apply decide_spec|].
      right. exists e, (task_summary env <$> pending).
      split; [done|]. split; [done|]. split; [|done].
      by destruct pending.
    + intros [= <- <-]. exists []. split; [done|]. right.
      eexists m, _, _, (task_summary env <$> delete _ pending).
      split; [done|]. split; [exact Hrej|]. split; [apply decide_spec|].
      split; [exact Hhalt|]. simpl. by rewrite Hperm.
  - intros [= <- <-]. exists []. split; [done|]. left.
    split; [apply decide_spec|].
    right. exists KeyboardInterrupt, (task_summary env <$> pending).
    split; [done|]. split; [done|]. split; [|done].
    by destruct pending.
Qed.

Lemma gather_spec (batch : list string) (st : State) (r : outcome unit)
    (st' : State) :
  gather env batch st = (r, st') →
  ∃ tr,
    Forall (λ o, rendered env o = true) (answers tr)
    ∧ ((delta tr st st'
        ∧ ((r = Return tt ∧ batch_done env (asked st) batch tr)
           ∨ (∃ e, r = Raise e ∧ is_Exception e = false
                   ∧ batch_cut env (asked st) batch tr)))
       ∨ (∃ m o st1,
            r = Raise (OtherException m) ∧ rejected env o m
            ∧ delta tr st st1 ∧ halted o st1 st'
            ∧ (batch_done env (asked st) batch (tr ++ [Answered o])
               ∨ batch_cut env (asked st) batch (tr ++ [Answered o])))).
Proof.
  unfold gather, bind.
  destruct (starts_spec batch st) as (pending & st1 & -> & Hb & Hd).
  intros Hrun.
  apply run_pending_spec in Hrun as (os & Hall & Hcase); [|done].
  rewrite Hb in Hcase.
  exists ((Asked <$> batch) ++ (Answered <$> os)).
  split; [by rewrite answers_app, answers_Asked, answers_Answered|].
  destruct Hcase
    as [[Hd' Hcase] | (m & o & st2 & rest & -> & Hrej & Hd' & Hh & Hos)].
  - left. split; [by apply (delta_trans _ _ _ _ _ Hd Hd')|].
    destruct Hcase as [(-> & Hos) | (e & rest & -> & He & Hrest & Hos)].
    + left. split; [done|]. by exists os.
    + right. exists e. split; [done|]. split; [done|]. by exists os, rest.
  - right. exists m, o, st2. split; [done|]. split; [done|].
    split; [by apply (delta_trans _ _ _ _ _ Hd Hd')|]. split; [done|].
    destruct rest as [|x rest].
    + left. exists (os ++ [o]).
      split; [by rewrite fmap_app, app_assoc|]. by rewrite fmap_app.
    + right. exists (os ++ [o]), (x :: rest).
      split; [by rewrite fmap_app, app_assoc|]. split; [done|].
      by rewrite fmap_app, <- app_assoc.
Qed.

(** *** The loop over the groups *)

Lemma loop_spec (groups : list (list string)) (st : State)
    (r : outcome unit) (st' : State) :
  for_each groups (gather env) st = (r, st') →
  ∃ tr,
    Forall (λ o, rendered env o = true) (answers tr)
    ∧ ((delta tr st st'
        ∧ ((r = Return tt ∧ in_order env (asked st) groups tr)
           ∨ (∃ e, r = Raise e ∧ is_Exception e = false
                   ∧ cut_short env (asked st) groups tr)))
       ∨ (∃ m o st1,
            r = Raise (OtherException m) ∧ rejected env o m
            ∧ delta tr st st1 ∧ halted o st1 st'
            ∧ left_in env (asked st) groups (tr ++ [Answered o]))).
Proof.
  revert st. induction groups as [|g groups IH]; intros st.
  { intros [= <- <-]. exists []. split; [done|]. left.
    split; [apply delta_refl|]. by left. }
  cbn [for_each]. unfold bind.
  destruct (gather env g st) as [r1 st1] eqn:Hg.
  apply gather_spec in Hg as (tr1 & Hall1 & Hcase1).
  destruct Hcase1
    as [[Hd1 [(-> & Hdone) | (e & -> & He & Hcut)]]
       | (m & o & st2 & -> & Hrej & Hd1 & Hh & Hshape)].
  - intros Hloop. apply IH in Hloop as (tr2 & Hall2 & Hcase2).
    assert (Hq : asked st1 = (asked st + length g)%nat).
    { destruct Hd1 as [_ _ _ _ _ _ ->].
      by apply batch_done_facts in Hdone as [-> _]. }
    rewrite Hq in Hcase2.
    exists (tr1 ++ tr2).
    split; [rewrite answers_app; by apply Forall_app|].
    destruct Hcase2
      as [[Hd2 [(-> & Hord) | (e & -> & He & Hshort)]]
         | (m & o & st2 & -> & Hrej & Hd2 & Hh & Hleft)].
    + left. split; [by apply (delta_trans _ _ _ _ _ Hd1 Hd2)|].
      left. split; [done|]. by exists tr1, tr2.
    + left. split; [by apply (delta_trans _ _ _ _ _ Hd1 Hd2)|].
      right. exists e. split; [done|]. split; [done|].
      by apply cut_short_cons.
    + right. exists m, o, st2. split; [done|]. split; [done|].
      split; [by apply (delta_trans _ _ _ _ _ Hd1 Hd2)|]. split; [done|].
      rewrite <- app_assoc. by apply left_in_cons.
  - intros [= <- <-]. exists tr1. split; [done|]. left. split; [done|].
    right. exists e. split; [done|]. split; [done|].
    by apply cut_short_here.
  - intros [= <- <-]. exists tr1. split; [done|]. right. exists m, o, st2.
    split; [done|]. split; [done|]. split; [done|]. split; [done|].
    by apply left_in_here.
Qed.

Lemma for_each_fmap {A B} (f : A → B) (l : list A) (body : B → M unit) :
  for_each (f <$> l) body = for_each l (body ∘ f).
Proof.
  induction l as [|x l IH]; [done|]. rewrite fmap_cons. simpl.
  by rewrite IH.
Qed.

(** [scan], with its loop read as a loop over the groups [batches]
    yields. *)
Lemma scan_eq (self : SubdomainScanner) (st : State) :
  scan env self st =
    let st0 :=
      set_bar (Some (Z.of_nat (length (generate_subdomains self)))) 0 []
        st in
    match batches (concurrency self) (generate_subdomains self) with
    | Raise e => (Raise e, st0)
    | Return groups =>
        match for_each groups (gather env) st0 with
        | (Return _, st1) =>
            if truthy_path (output_file self) then save_results env self st1
            else (Return tt, st1)
        | (Raise e, st1) => (Raise e, st1)
        end
    end.
Proof.
  unfold scan, batches, bind, add_task, modify, lift. cbv zeta.
  destruct (range _ _ _) as [starts|e]; [|done].
  rewrite for_each_fmap.
  change (for_each starts _) with
    (for_each starts (scan_batch env self (generate_subdomains self))).
  destruct (for_each starts _ _) as [[[]|e] st1]; [|done].
  by destruct (truthy_path _).
Qed.

(** [save_results] touches the files, the console and the log only.
    When the file can be opened and written it holds the collected
    lines, each followed by a newline, in the order of [self.results],
    and the console is told; when the write fails, the file holds what
    was written of them. *)
Lemma save_results_spec (self : SubdomainScanner) (st : State)
    (r : outcome unit) (st' : State) :
  save_results env self st = (r, st') →
  results st' = results st ∧ trace st' = trace st
  ∧ completed st' = completed st ∧ shown st' = shown st
  ∧ total st' = total st ∧ asked st' = asked st
  ∧ match output_file self with
    | Some path =>
        match open_w env path with
        | Return _ =>
            match write_w env path (file_text (results st)) with
            | None =>
                files st' = <[path := {| encoding := "utf-8";
                                         text := file_text (results st) |}]>
                              (files st)
                ∧ r = match markup_error env (msg_saved path) with
                      | None => Return tt
                      | Some m => Raise (OtherException m)
                      end
            | Some (w, k) =>
                files st' = <[path := {| encoding := "utf-8";
                                         text := substring 0 k
                                                   (file_text (results st))
                                      |}]>
                              (files st)
                ∧ r = match w with
                      | DeviceFailure _ => Return tt
                      | EncodeFailure m => Raise (ValueError m)
                      end
            end
        | Raise e =>
            files st' = files st
            ∧ r = if is_OSError e then Return tt else Raise e
        end
    | None => files st' = files st
    end.
Proof.
  unfold save_results, try_except, bind, lift, write_file, console_print_f,
    msg_saved.
  destruct (output_file self) as [path|]; [|by intros [= <- <-]].
  destruct (open_w env path) as [[]|e].
  - destruct (write_w env path _) as [[[m|m] k]|]; simpl.
    + by intros [= <- <-].
    + by intros [= <- <-].
    + destruct (markup_error env _) as [m|]; by intros [= <- <-].
  - by destruct e; intros [= <- <-].
Qed.

(** *** A run of [scan] *)

(** The effect of [scan] when the [range] of its loop can be built:
    the bar is set up, then the groups run in order. The lines
    collected and the advances of the bar are those of the outcomes
    whose coroutine ran to its end. Either all the groups complete and
    the flush is reached; or the run is cut short in one of them by an
    exception that is not an [Exception]; or the console rejects the
    line of an outcome, whose error ends the scan. In the last two
    cases nothing is written. *)
Lemma scan_spec (self : SubdomainScanner) (groups : list (list string))
    (st : State) (r : outcome unit) (st' : State) :
  batches (concurrency self) (generate_subdomains self) = Return groups →
  scan env self st = (r, st') →
  ∃ tr,
    trace st' = trace st ++ tr
    ∧ total st' = Some (Z.of_nat (length (generate_subdomains self)))
    ∧ left_in env (asked st) groups tr
    ∧ results st'
      = results st ++ (line_of <$> collected (counted env (answers tr)))
    ∧ completed st' = Z.of_nat (length (counted env (answers tr)))
    ∧ shown st' = Z.of_nat <$> seq 1 (length (counted env (answers tr)))
    ∧ ((counted env (answers tr) = answers tr
        ∧ ((in_order env (asked st) groups tr ∧ flushed env self st r st')
           ∨ (∃ e, r = Raise e ∧ is_Exception e = false
                   ∧ cut_short env (asked st) groups tr
                   ∧ files st' = files st)))
       ∨ (∃ m o, r = Raise (OtherException m) ∧ rejected env o m
                 ∧ o ∈ answers tr ∧ files st' = files st)).
Proof.
  intros Hb. rewrite scan_eq, Hb. cbv zeta.
  destruct (for_each groups _ _) as [r1 st1] eqn:Hloop.
  apply loop_spec in Hloop as (tr & Hall & Hcase).
  pose proof (counted_all _ _ Hall) as Hcount.
  destruct Hcase
    as [[[Ht Hr Hc Hs Hto Hf Ha] [(-> & Hord) | (e & -> & He & Hcut)]]
       | (m & o & st2 & -> & Hrej & [Ht Hr Hc Hs Hto Hf Ha] & -> & Hleft)];
    simpl in Ht, Hr, Hc, Hs, Hto, Hf, Ha.
  - assert (Hleft : left_in env (asked st) groups tr)
      by (by apply in_order_left_in).
    unfold flushed, truthy_path.
    destruct (output_file self) as [[|c path]|] eqn:Hpath; simpl.
    + intros [= <- <-]. exists tr. rewrite Hcount.
      repeat (split; [done|]). left. split; [done|]. by left.
    + intros Hsave. exists tr.
      apply save_results_spec in Hsave
        as (Hr' & Ht' & Hc' & Hs' & Hto' & _ & Hfile).
      rewrite Hr', Ht', Hc', Hs', Hto', Hcount.
      repeat (split; [done|]). left. split; [done|]. left.
      split; [done|]. rewrite Hpath in Hfile.
      rewrite <- Hf. exact Hfile.
    + intros [= <- <-]. exists tr. rewrite Hcount.
      repeat (split; [done|]). left. split; [done|]. by left.
  - intros [= <- <-]. exists tr. rewrite Hcount. repeat (split; [done|]).
    split; [by right|]. repeat (split; [done|]).
    left. split; [done|]. right. by exists e.
  - intros [= <- <-]. exists (tr ++ [Answered o]). simpl.
    rewrite answers_app. change (answers [Answered o]) with [o].
    rewrite (counted_snoc_rejected _ _ _ _ Hall Hrej).
    rewrite Ht, app_assoc. repeat (split; [done|]).
    right. exists m, o. split; [done|]. split; [done|].
    split; [|done]. apply elem_of_app. right. by apply list_elem_of_singleton.
Qed.

End Run.

Example demo_run :
  let st := snd (run Demo.env "example.com" "words.txt" 2 (Some "found.txt")
                   initial) in
  results st =
    ["www.example.com -> 93.184.216.34, 2606:2800:220:1::1946 0.50";
     "mail.example.com -> 93.184.216.35 0.75"]
  ∧ shown st = [1; 2; 3]
  ∧ text <$> files st !! "found.txt" =
      Some ("www.example.com -> 93.184.216.34, 2606:2800:220:1::1946 0.50"
              +:+ nl +:+ "mail.example.com -> 93.184.216.35 0.75" +:+ nl).
Proof. vm_compute. done. Qed.

(** A run of [scan] that completes: what it collected and what it
    wrote. *)
Lemma scan_returns_spec (env : Env) (self : SubdomainScanner)
    (st st' : State) :
  scan env self st = (Return tt, st') →
  ∃ tr,
    trace st' = trace st ++ tr
    ∧ results st' = results st ++ (line_of <$> collected (answers tr))
    ∧ (1 ≤ concurrency self →
       asks tr = generate_subdomains self
       ∧ summary <$> answers tr
           ≡ₚ expected env (asked st) (generate_subdomains self)
       ∧ candidate <$> answers tr ≡ₚ generate_subdomains self)
    ∧ (∀ path, output_file self = Some path → path ≠ EmptyString →
               open_w env path = Return tt →
               write_w env path (file_text (results st')) = None →
               files st' !! path =
                 Some {| encoding := "utf-8";
                         text := file_text (results st') |}).
Proof.
  intros Hscan.
  destruct (batches (concurrency self) (generate_subdomains self))
    as [groups|e] eqn:Hb.
  2:{ rewrite scan_eq, Hb in Hscan. discriminate Hscan. }
  pose proof (scan_spec env self _ st _ st' Hb Hscan)
    as (tr & Ht & _ & _ & Hr & _ & _
        & [(Hcount & [[Hord Hflush] | (e & [=] & _)])
          | (m & o & [=] & _)]).
  rewrite Hcount in Hr.
  exists tr. split; [done|]. split; [done|]. split.
  - intros Hn. rewrite batches_chunks in Hb by done.
    injection Hb as <-.
    pose proof (in_order_answers _ _ _ _ Hord) as [-> ->].
    apply in_order_facts in Hord as [_ ->].
    by rewrite chunks_concat.
  - intros path Hpath Hne Hopen Hwrite. unfold flushed in Hflush.
    rewrite Hpath in Hflush. destruct path; [done|].
    rewrite Hopen, Hwrite in Hflush.
    destruct Hflush as [-> _]. by rewrite lookup_insert_eq.
Qed.

(** ** The application *)

(** [load] reads; at most it adds a message to the error log. *)
Lemma load_spec (env : Env) (file_path : string) (st : State)
    (r : outcome (list string)) (st' : State) :
  load env file_path st = (r, st') →
  st' = st ∨ ∃ m, st' = set_errors (errors st ++ [m]) st.
Proof.
  unfold load. destruct (read_lines env file_path) as [lines|e].
  - intros [= <- <-]. by left.
  - destruct e; intros [= <- <-]; first [by left | right; by eexists].
Qed.

(** The wordlist is empty when the file cannot be found or read, and
    when every line of it is blank. *)
Lemma load_empty (env : Env) (file_path : string) (st : State) :
  (∃ m, read_lines env file_path = Raise (FileNotFoundError m))
  ∨ (∃ m, read_lines env file_path = Raise (OSError m))
  ∨ (∃ lines, read_lines env file_path = Return lines
              ∧ Forall (λ line, strip line = EmptyString) lines) →
  ∃ st', load env file_path st = (Return [], st').
Proof.
  unfold load. intros [[m ->] | [[m ->] | (lines & -> & Hblank)]].
  - by eexists.
  - by eexists.
  - exists st. unfold ret. do 2 f_equal.
    induction Hblank as [|line lines Hline _ IH]; [done|].
    rewrite filter_cons_False; [done|]. rewrite Hline. simpl. tauto.
Qed.

(** [run], by the outcome of loading the wordlist and of the scan. *)
Lemma run_eq (env : Env) (domain wordlist_path : string) (n : Z)
    (out : option string) (st : State) :
  run env domain wordlist_path n out st =
    match load env wordlist_path st with
    | (Raise e, st1) => (Raise e, st1)
    | (Return [], st1) =>
        (Return tt, set_console (console st1 ++ [msg_no_words]) st1)
    | (Return wl, st1) =>
        let self := {| domain := domain; wordlist := wl; concurrency := n;
                       output_file := out |} in
        match markup_error env (msg_starting domain) with
        | Some m =>
            (Return tt,
             set_errors (errors st1 ++ ["Unexpected error: " +:+ m])
               (set_results [] st1))
        | None =>
            let st2 := set_console (console st1 ++ [msg_starting domain])
                         (set_results [] st1) in
            match scan env self st2 with
            | (Return _, st3) => (Return tt, st3)
            | (Raise KeyboardInterrupt, st3) =>
                (Return tt,
                 set_console (console st3 ++ [msg_interrupted]) st3)
            | (Raise e, st3) =>
                if is_Exception e then
                  (Return tt,
                   set_errors
                     (errors st3 ++ ["Unexpected error: " +:+ str_exn e]) st3)
                else (Raise e, st3)
            end
        end
    end.
Proof.
  unfold run. unfold bind at 1.
  destruct (load env wordlist_path st) as [[[|w wl]|e] st1]; [done| |done].
  simpl. unfold bind, try_except, new_scanner, console_print_f, console_print,
    modify, msg_starting. simpl.
  destruct (markup_error env _) as [m|]; [done|].
  destruct (scan env _ _) as [[[]|e] st3]; [done|].
  by destruct e.
Qed.


(** What [resolve] lets through: an exception that is not an
    [Exception], such as the cancellation of the coroutine. *)
Lemma resolve_passes_base_exceptions (subdomain : string) (e : exn)
    (st : State) :
  is_Exception e = false →
  resolve subdomain (Raise e) st = (Raise e, st).
Proof. by destruct e. Qed.

(** * The specification, claim by claim *)

(** C1, as the code has it. For a concurrency limit [N >= 1] the
    candidates are cut into consecutive groups whose concatenation is
    the candidate sequence; the number [g] of groups is the quotient of
    [L] by [N] rounded up, that is [(g - 1) * N < L <= g * N]; every group
    holds between one and [N] candidates and every group but the last
    holds exactly [N]; a non-empty sequence of at most [N] candidates
    forms the single group of all candidates (an empty sequence forms
    no group). The groups are processed in order: in the trace of the
    run, each group in turn has all its candidates asked and then all of
    them answered before the next group is asked, up to the group in
    which an interruption cuts the run short, or the console rejects
    the line of an answer, after which no group is asked; so at every
    moment of the run at most [N] queries are in flight. *)
Theorem scan_groups (env : Env) (self : SubdomainScanner) (st : State)
    (r : outcome unit) (st' : State) :
  1 ≤ concurrency self →
  scan env self st = (r, st') →
  let n := concurrency self in
  let subdomains := generate_subdomains self in
  ∃ groups,
    batches n subdomains = Return groups
    ∧ concat groups = subdomains
    ∧ Z.of_nat (length groups) = ceil_div (Z.of_nat (length subdomains)) n
    ∧ (Z.of_nat (length groups) - 1) * n < Z.of_nat (length subdomains)
        ≤ Z.of_nat (length groups) * n
    ∧ (∀ i g, groups !! i = Some g →
         1 ≤ Z.of_nat (length g) ≤ n
         ∧ ((S i < length groups)%nat → Z.of_nat (length g) = n))
    ∧ ((1 ≤ length subdomains)%nat → Z.of_nat (length subdomains) ≤ n →
       groups = [subdomains])
    ∧ ∃ tr, trace st' = trace st ++ tr
            ∧ (in_order env (asked st) groups tr
               ∨ cut_short env (asked st) groups tr
               ∨ (∃ k m o, r = Raise (OtherException m) ∧ rejected env o m
                           ∧ o ∈ answers tr
                           ∧ in_order env (asked st) (take k groups) tr))
            ∧ (r = Return tt → in_order env (asked st) groups tr)
            ∧ (∀ p, p `prefix_of` tr → 0 ≤ in_flight p ≤ n).
Proof.
  intros Hn Hscan. cbv zeta.
  assert (Hpos : 0 < concurrency self) by lia.
  pose proof (batches_chunks _ (generate_subdomains self) Hn) as Hb.
  pose proof (ceil_div_bounds (Z.of_nat (length (generate_subdomains self)))
                _ Hpos) as Hceil.
  set (groups := chunk _ _ <$> seq 0 _) in Hb.
  assert (Hlen : Z.of_nat (length groups)
                 = ceil_div (Z.of_nat (length (generate_subdomains self)))
                     (concurrency self)).
  { unfold groups. rewrite length_fmap, length_seq. lia. }
  exists groups. split; [exact Hb|].
  split; [by apply chunks_concat|]. split; [done|].
  split; [by rewrite Hlen|]. split; [|split].
  - intros i g Hg. apply chunks_lookup in Hg as [Hg1 Hg2]; [|done].
    split; [lia|]. unfold groups. rewrite length_fmap, length_seq. lia.
  - intros H1 H2. by apply chunks_single.
  - assert (Hsizes : Forall (λ g, Z.of_nat (length g) ≤ concurrency self)
                        groups).
    { apply Forall_lookup. intros i g Hg.
      apply chunks_lookup in Hg as [Hg1 _]; [lia | done]. }
    apply (scan_spec env self _ st r st' Hb) in Hscan
      as (tr & Ht & _ & Hleft & _ & _ & _ & Hcase).
    exists tr. split; [done|].
    assert (Hflight : ∀ p, p `prefix_of` tr →
                           0 ≤ in_flight p ≤ concurrency self).
    { intros p Hp.
      assert (Hp' : p = take (length p) tr)
        by (destruct Hp as [k ->]; by rewrite take_app_length).
      rewrite Hp'.
      assert (H0 : 0 ≤ concurrency self) by lia.
      apply (left_in_in_flight env _ _ groups tr H0 Hsizes Hleft). }
    destruct Hcase
      as [(_ & [[Hord _] | (e & -> & _ & Hcut & _)])
         | (m & o & -> & Hrej & Ho & _)].
    + split; [by left|]. split; done.
    + split; [right; by left|]. split; done.
    + split; [|split; done].
      destruct Hleft as [[k Hord] | Hcut]; [|right; by left].
      right. right. by exists k, m, o.
Qed.

Lemma scan_groups_witness :
  ∃ groups,
    batches 2 ["www.example.com"; "doesnotexist123.example.com";
               "mail.example.com"] = Return groups
    ∧ length groups = 2%nat.
Proof.
  destruct (scan_groups Demo.env (Demo.scanner 2) initial
              (fst (scan Demo.env (Demo.scanner 2) initial))
              (snd (scan Demo.env (Demo.scanner 2) initial)))
    as (groups & Hb & _ & Hlen & _).
  - simpl. lia.
  - apply surjective_pairing.
  - exists groups. split; [exact Hb|].
    apply Nat2Z.inj. rewrite Hlen. reflexivity.
Defined.

(** C1, as stated, fails on the empty candidate sequence: a scanner
    with an empty wordlist and [N = 1], larger than [L = 0], forms no
    group at all rather than one group holding all (zero) candidates. *)
Lemma one_group_fails_on_empty :
  let self := {| domain := "example.com"; wordlist := [];
                 concurrency := 1; output_file := None |} in
  1 ≤ concurrency self
  ∧ Z.of_nat (length (generate_subdomains self)) < concurrency self
  ∧ batches (concurrency self) (generate_subdomains self) = Return []
  ∧ ¬ ∃ g, batches (concurrency self) (generate_subdomains self)
           = Return [g].
Proof.
  cbv zeta. split; [simpl; lia|]. split; [simpl; lia|]. split; [done|].
  intros [g Hg]. discriminate Hg.
Qed.




(** C3. Whatever a query yields, as long as what it raises is an
    [Exception] (a name that does not exist, a timeout and any other
    DNS failure are [DNSError]s; any other error of the resolution
    layer is some other [Exception]), [resolve] returns normally: the
    addresses on success, the empty list on every failure. A
    [DNSError] leaves no trace at all; any other error adds one message
    to the error log and changes nothing else. *)
Theorem resolve_never_raises (subdomain : string)
    (reply : outcome (list string)) (st : State) :
  (∀ e, reply = Raise e → is_Exception e = true) →
  resolve subdomain reply st =
    match reply with
    | Return addrs => (Return addrs, st)
    | Raise (DNSError _) => (Return [], st)
    | Raise e =>
        (Return [],
         set_errors (errors st ++
                       ["Error resolving " +:+ subdomain +:+ ": "
                          +:+ str_exn e]) st)
    end.
Proof.
  intros He. destruct reply as [addrs|e]; [done|].
  specialize (He e eq_refl). by destruct e.
Qed.

Lemma resolve_never_raises_witness :
  resolve "doesnotexist123.example.com"
    (Raise (DNSError "Domain name not found")) initial = (Return [], initial)
  ∧ resolve "bad name.example.com"
      (Raise (OtherException "label empty or too long")) initial
    = (Return [],
       set_errors
         ["Error resolving bad name.example.com: label empty or too long"]
         initial).
Proof.
  split.
  - apply (resolve_never_raises "doesnotexist123.example.com"
             (Raise (DNSError "Domain name not found")) initial).
    intros e [= <-]. reflexivity.
  - apply (resolve_never_raises "bad name.example.com"
             (Raise (OtherException "label empty or too long")) initial).
    intros e [= <-]. reflexivity.
Defined.






(** C6, as the code has it. When an output path is supplied, the file
    can be opened and the write goes through, a run of [scan] that
    completes leaves a file, opened with the codec [utf-8], whose text
    is the concatenation of the results, each followed by one newline,
    in the order the scanner holds them, which is the order in which the
    answers arrived. The results added by the run are the lines of the
    outcomes with addresses, one for each: the candidate, [" -> "], the
    addresses joined by [", "], a space, and the elapsed seconds in
    fixed-point notation with two decimals, that is the sign and the
    number of hundredths nearest to the elapsed time. When no candidate
    and no address holds a newline of its own, every result is exactly
    one line of the file: read back line by line, the file gives the
    results. *)
Theorem output_lines (env : Env) (self : SubdomainScanner) (st st' : State)
    (path : string) :
  output_file self = Some path → path ≠ EmptyString →
  open_w env path = Return tt →
  write_w env path (file_text (results st')) = None →
  scan env self st = (Return tt, st') →
  ∃ tr lines,
    trace st' = trace st ++ tr
    ∧ results st' = results st ++ lines
    ∧ Forall2 serialized (filter (λ o, addresses o ≠ []) (answers tr)) lines
    ∧ files st' !! path =
        Some {| encoding := "utf-8";
                text := String.concat EmptyString
                          ((λ l, l +:+ nl) <$> results st') |}
    ∧ (Forall (λ l, has_newline l = false) (results st) →
       Forall on_one_line (answers tr) →
       text_lines (String.concat EmptyString
                     ((λ l, l +:+ nl) <$> results st'))
       = results st').
Proof.
  intros Hpath Hne Hopen Hwrite Hscan.
  apply scan_returns_spec in Hscan as (tr & Ht & Hr & _ & Hfile).
  exists tr, (line_of <$> collected (answers tr)).
  split; [done|]. split; [done|]. split; [|split].
  - apply Forall2_fmap_r, Forall_Forall2_diag, Forall_forall.
    intros o _. exists (format_2f (elapsedSeconds o)).
    split; [apply format_2f_correct | done].
  - by apply Hfile.
  - intros Hold Hnew. apply text_lines_file_text.
    rewrite Hr. apply Forall_app. split; [done|].
    apply Forall_fmap, Forall_forall. intros o [_ Ho]%list_elem_of_filter.
    apply has_newline_line_of. by apply (proj1 (Forall_forall _ _) Hnew).
Qed.

Lemma output_lines_witness :
  files (snd (scan Demo.env (Demo.scanner 2) initial)) !! "found.txt" =
    Some {| encoding := "utf-8";
            text :=
              "www.example.com -> 93.184.216.34, 2606:2800:220:1::1946 0.50"
                +:+ nl +:+ "mail.example.com -> 93.184.216.35 0.75" +:+ nl |}.
Proof.
  destruct (output_lines Demo.env (Demo.scanner 2) initial
              (snd (scan Demo.env (Demo.scanner 2) initial)) "found.txt")
    as (tr & lines & _ & _ & _ & -> & _).
  - reflexivity.
  - discriminate.
  - reflexivity.
  - reflexivity.
  - by vm_compute.
  - by vm_compute.
Defined.

(** C6, as stated, fails in two ways. A candidate that holds a newline
    (here through the domain) and resolves is written as two lines of
    the file, not one. And with an output path supplied, a file that
    cannot be opened, or that is opened on a device that is full, holds
    no line at all for the outcomes collected. *)
Lemma one_line_per_outcome_fails :
  (let self := scanner_of ("ex" +:+ nl +:+ "ample.com") ["www"] 1
                 (Some "found.txt") in
   let st' := snd (scan Cases.env_markup self initial) in
   fst (scan Cases.env_markup self initial) = Return tt
   ∧ length (results st') = 1%nat
   ∧ (λ f, length (text_lines (text f))) <$> files st' !! "found.txt"
     = Some 2%nat)
  ∧ (let st' := snd (scan Cases.env_read_only (Demo.scanner 2) initial) in
     fst (scan Cases.env_read_only (Demo.scanner 2) initial) = Return tt
     ∧ length (results st') = 2%nat
     ∧ files st' !! "found.txt" = None)
  ∧ (let st' := snd (scan Cases.env_disk_full (Demo.scanner 2) initial) in
     fst (scan Cases.env_disk_full (Demo.scanner 2) initial) = Return tt
     ∧ length (results st') = 2%nat
     ∧ files st' !! "found.txt"
       = Some {| encoding := "utf-8"; text := EmptyString |}).
Proof. by vm_compute. Qed.

(** C7. For a base domain and labels that are all non-empty, the
    candidates are the labels in input order, each followed by a dot and
    the domain: one candidate per label, the [i]-th candidate comes from
    the [i]-th label, and a label occurring [k] times yields its
    candidate [k] times (nothing is deduplicated). Every occurrence is
    processed on its own: a run of [scan] that completes, with a
    concurrency limit [N >= 1], hands the candidates to the resolver one
    by one in their order and records one outcome for each
    occurrence. *)
Theorem generate_subdomains_one_per_label (self : SubdomainScanner) :
  Forall (λ w, w ≠ EmptyString) (wordlist self) →
  generate_subdomains self
    = (λ w, w +:+ "." +:+ domain self) <$> wordlist self
  ∧ length (generate_subdomains self) = length (wordlist self)
  ∧ (∀ i w, wordlist self !! i = Some w →
            generate_subdomains self !! i = Some (w +:+ "." +:+ domain self))
  ∧ (∀ w, count_occ string_dec (generate_subdomains self)
            (w +:+ "." +:+ domain self)
          = count_occ string_dec (wordlist self) w)
  ∧ (∀ env st st', 1 ≤ concurrency self →
       scan env self st = (Return tt, st') →
       ∃ tr, trace st' = trace st ++ tr
             ∧ asks tr = generate_subdomains self
             ∧ candidate <$> answers tr ≡ₚ generate_subdomains self).
Proof.
  intros Hne. split; [|split; [|split; [|split]]].
  - unfold generate_subdomains. by rewrite (filter_truthy_id _ Hne).
  - unfold generate_subdomains.
    by rewrite (filter_truthy_id _ Hne), length_fmap.
  - intros i w Hi. unfold generate_subdomains.
    by rewrite (filter_truthy_id _ Hne), list_lookup_fmap, Hi.
  - intros w. unfold generate_subdomains. rewrite (filter_truthy_id _ Hne).
    apply (@count_occ_fmap_inj _ _ string_dec string_dec
             (λ w, w +:+ "." +:+ domain self) (candidate_inj (domain self))).
  - intros env st st' Hn Hscan.
    apply scan_returns_spec in Hscan as (tr & Ht & _ & Hall & _).
    exists tr. split; [done|]. destruct (Hall Hn) as (? & _ & ?). done.
Qed.

Lemma generate_subdomains_one_per_label_witness :
  generate_subdomains
    {| domain := "example.com"; wordlist := ["www"; "mail"; "www"];
       concurrency := 50; output_file := None |}
  = ["www.example.com"; "mail.example.com"; "www.example.com"].
Proof.
  apply (generate_subdomains_one_per_label
           {| domain := "example.com"; wordlist := ["www"; "mail"; "www"];
              concurrency := 50; output_file := None |}).
  repeat constructor; discriminate.
Defined.

(** C8. When the wordlist file cannot be found or read, or holds only
    blank lines, the wordlist is empty and [run] returns after printing
    its message: no query was handed to the resolver, nothing was
    collected and no file was written. The final state is the one
    [load] left, which differs from the initial one by at most a
    message in the error log, plus the message on the console. *)
Theorem empty_wordlist_aborts (env : Env) (domain wordlist_path : string)
    (n : Z) (out : option string) (st : State) :
  (∃ m, read_lines env wordlist_path = Raise (FileNotFoundError m))
  ∨ (∃ m, read_lines env wordlist_path = Raise (OSError m))
  ∨ (∃ lines, read_lines env wordlist_path = Return lines
              ∧ Forall (λ line, strip line = EmptyString) lines) →
  ∃ st1,
    load env wordlist_path st = (Return [], st1)
    ∧ run env domain wordlist_path n out st
      = (Return tt, set_console (console st1 ++ [msg_no_words]) st1)
    ∧ trace st1 = trace st ∧ asked st1 = asked st
    ∧ results st1 = results st ∧ files st1 = files st.
Proof.
  intros Hempty.
  destruct (load_empty env wordlist_path st Hempty) as [st1 Hload].
  exists st1. split; [done|]. split; [by rewrite run_eq, Hload|].
  by destruct (load_spec _ _ _ _ _ Hload) as [-> | [m ->]].
Qed.

Lemma empty_wordlist_aborts_witness :
  let st' := snd (run Demo.env_no_wordlist "example.com" "words.txt" 50
                    (Some "found.txt") initial) in
  console st' = [msg_no_words] ∧ trace st' = [] ∧ files st' = ∅.
Proof.
  destruct (empty_wordlist_aborts Demo.env_no_wordlist "example.com"
              "words.txt" 50 (Some "found.txt") initial)
    as (st1 & Hload & Hrun & Ht & _ & _ & Hf).
  - left. by eexists.
  - cbv zeta. rewrite Hrun. simpl. rewrite Ht, Hf.
    injection Hload as <-. by vm_compute.
Defined.

(** C9. [generate_subdomains] keeps exactly the labels that are not the
    empty string, in order; a wordlist that contains the empty string
    yields strictly fewer candidates than labels, and the counts agree
    exactly when every label is non-empty. *)
Theorem generate_subdomains_drops_empty (self : SubdomainScanner) :
  generate_subdomains self
    = (λ w, w +:+ "." +:+ domain self) <$>
        filter (λ w, w ≠ EmptyString) (wordlist self)
  ∧ (EmptyString ∈ wordlist self →
     (length (generate_subdomains self) < length (wordlist self))%nat)
  ∧ (length (generate_subdomains self) = length (wordlist self)
     ↔ Forall (λ w, w ≠ EmptyString) (wordlist self)).
Proof.
  unfold generate_subdomains. split; [|split].
  - f_equal. apply list_filter_iff. intros w. apply truthy_str_iff.
  - intros Hin. rewrite length_fmap.
    apply (length_filter_lt _ _ EmptyString); [done | simpl; tauto].
  - rewrite length_fmap. split.
    + intros Hlen. apply Forall_forall. intros w Hw ->.
      pose proof (length_filter_lt (λ w, truthy_str w) (wordlist self)
                    EmptyString Hw) as Hlt.
      simpl in Hlt. lia.
    + intros Hne. by rewrite filter_truthy_id.
Qed.

(** C10. For a non-empty candidate list: with a concurrency of zero,
    [scan] raises the [ValueError] of [range] before any query is handed
    to the resolver; with a negative concurrency the loop has no
    iteration, so no query is handed to the resolver, nothing is
    collected and the progress counter stays at zero, below the
    total. *)
Theorem nonpositive_concurrency (env : Env) (self : SubdomainScanner)
    (st : State) :
  generate_subdomains self ≠ [] →
  (concurrency self = 0 →
   ∃ st', scan env self st
          = (Raise (ValueError "range() arg 3 must not be zero"), st')
          ∧ trace st' = trace st ∧ asked st' = asked st
          ∧ results st' = results st ∧ files st' = files st)
  ∧ (concurrency self < 0 →
     ∀ r st', scan env self st = (r, st') →
       batches (concurrency self) (generate_subdomains self) = Return []
       ∧ trace st' = trace st ∧ results st' = results st
       ∧ shown st' = [] ∧ completed st' = 0
       ∧ ∃ L, total st' = Some L ∧ completed st' < L).
Proof.
  intros Hne. split.
  - intros Hz. rewrite scan_eq. unfold batches, range. rewrite Hz. simpl.
    eexists. split; [reflexivity|]. done.
  - intros Hneg r st' Hscan.
    assert (Hb : batches (concurrency self) (generate_subdomains self)
                 = Return []).
    { unfold batches, range, range_len.
      rewrite (proj2 (Z.eqb_neq _ 0)) by lia.
      rewrite (proj2 (Z.ltb_ge 0 _)) by lia.
      rewrite (proj2 (Z.ltb_ge _ 0)) by lia. done. }
    split; [done|].
    pose proof (scan_spec env self _ st r st' Hb Hscan)
      as (tr & Ht & Hto & Hleft & Hr & Hc & Hs & _).
    assert (tr = []) as ->.
    { destruct Hleft as [[k Hord] | (d & g & rest & _ & _ & Hd & _)].
      - by rewrite take_nil in Hord.
      - by destruct d. }
    rewrite app_nil_r in Ht, Hr. simpl in Hc, Hs.
    repeat (split; [done|]). eexists. split; [done|].
    rewrite Hc. destruct (generate_subdomains self); [done | simpl; lia].
Qed.

Lemma nonpositive_concurrency_witness :
  fst (scan Demo.env (Demo.scanner 0) initial)
    = Raise (ValueError "range() arg 3 must not be zero")
  ∧ completed (snd (scan Demo.env (Demo.scanner (-5)) initial)) = 0.
Proof.
  destruct (nonpositive_concurrency Demo.env (Demo.scanner 0) initial)
    as [Hzero _]; [discriminate|].
  destruct (nonpositive_concurrency Demo.env (Demo.scanner (-5)) initial)
    as [_ Hneg]; [discriminate|].
  split.
  - destruct (Hzero eq_refl) as (st' & -> & _). reflexivity.
  - apply (Hneg ltac:(simpl; lia) _ _ (surjective_pairing _)).
Defined.

(** * Further properties of the code *)

(** ** The wordlist loader *)

Lemma lstrip_first (s : string) (c : ascii) :
  first_char (lstrip s) = Some c → isspace c = false.
Proof.
  induction s as [|a s IH]; simpl; [done|].
  destruct (isspace a) eqn:Ha; [done|]. simpl. by intros [= <-].
Qed.

Lemma rstrip_first (s : string) (c : ascii) :
  first_char (rstrip s) = Some c → first_char s = Some c.
Proof.
  destruct s as [|a s]; simpl; [done|].
  destruct (rstrip s); [destruct (isspace a)|]; done.
Qed.

Lemma rstrip_last (s : string) (c : ascii) :
  last_char (rstrip s) = Some c → isspace c = false.
Proof.
  induction s as [|a s IH]; simpl; [done|].
  destruct (rstrip s) as [|b r] eqn:Hr.
  - destruct (isspace a) eqn:Ha; [done|]. simpl. by intros [= <-].
  - done.
Qed.

Lemma lstrip_id (s : string) :
  (∀ c, first_char s = Some c → isspace c = false) → lstrip s = s.
Proof.
  destruct s as [|a s]; simpl; [done|]. intros H. by rewrite (H a).
Qed.

Lemma rstrip_id (s : string) :
  (∀ c, last_char s = Some c → isspace c = false) → rstrip s = s.
Proof.
  induction s as [|a s IH]; [done|]. intros H. simpl.
  destruct s as [|b s'].
  - simpl. by rewrite (H a).
  - rewrite IH by (intros c Hc; by apply H). done.
Qed.

Lemma strip_clean (s : string) : strip s ≠ EmptyString → clean_word (strip s).
Proof.
  intros Hne.
  assert (Hfirst : ∀ c, first_char (strip s) = Some c → isspace c = false).
  { intros c Hc. apply rstrip_first in Hc. by apply lstrip_first in Hc. }
  assert (Hlast : ∀ c, last_char (strip s) = Some c → isspace c = false).
  { intros c Hc. by apply rstrip_last in Hc. }
  split; [done|]. split; [|done].
  unfold strip at 1. by rewrite lstrip_id, rstrip_id.
Qed.

Lemma load_clean (env : Env) (file_path : string) (st : State)
    (wl : list string) (st' : State) :
  load env file_path st = (Return wl, st') →
  Forall clean_word wl.
Proof.
  unfold load. destruct (read_lines env file_path) as [lines|e].
  - intros [= <- <-]. apply Forall_fmap, Forall_forall.
    intros line [Hline _]%list_elem_of_filter. simpl.
    apply strip_clean. by apply truthy_str_iff.
  - destruct e; intros [= <- <-]; constructor.
Qed.

Lemma load_candidates (env : Env) (domain file_path : string) (n : Z)
    (out : option string) (st : State) (wl : list string) (st' : State) :
  load env file_path st = (Return wl, st') →
  generate_subdomains (scanner_of domain wl n out)
  = (λ w, w +:+ "." +:+ domain) <$> wl.
Proof.
  intros Hload. unfold generate_subdomains. simpl.
  rewrite filter_truthy_id; [done|].
  apply load_clean in Hload.
  eapply Forall_impl; [exact Hload|]. by intros w [Hw _].
Qed.

(** X1. Every word [load] returns is not empty, has no white space at
    its start or at its end, and is left unchanged by [strip]. *)
Theorem load_words_clean (env : Env) (file_path : string) (st : State)
    (wl : list string) (st' : State) :
  load env file_path st = (Return wl, st') →
  Forall clean_word wl.
Proof.
  intros Hload. apply Forall_forall. intros w Hw.
  apply load_clean in Hload. by apply (proj1 (Forall_forall _ _) Hload).
Qed.

Lemma load_words_clean_witness :
  Forall clean_word ["www"; "doesnotexist123"; "mail"].
Proof.
  apply (load_words_clean Demo.env "words.txt" initial
           ["www"; "doesnotexist123"; "mail"] initial).
  reflexivity.
Defined.

(** X2. The words [load] returns all become candidates: the scanner
    that [run] builds from them has exactly one candidate per word, in
    the order of the words, because none of them is empty. *)
Theorem loaded_words_all_become_candidates (env : Env)
    (domain file_path : string) (n : Z) (out : option string) (st : State)
    (wl : list string) (st' : State) :
  load env file_path st = (Return wl, st') →
  generate_subdomains (scanner_of domain wl n out)
  = (λ w, w +:+ "." +:+ domain) <$> wl.
Proof. intros Hload. by apply (load_candidates env _ file_path _ _ st _ st'). Qed.

Lemma loaded_words_all_become_candidates_witness :
  generate_subdomains
    (scanner_of "example.com" ["www"; "doesnotexist123"; "mail"] 50 None)
  = ["www.example.com"; "doesnotexist123.example.com"; "mail.example.com"].
Proof.
  apply (loaded_words_all_become_candidates Demo.env "example.com"
           "words.txt" 50 None initial ["www"; "doesnotexist123"; "mail"]
           initial).
  reflexivity.
Defined.

(** ** Which exceptions leave [scan] and [run] *)

(** X3. An exception of [load] that its handlers do not name (a
    decoding error, for one) leaves [run] as it is, before anything is
    printed or logged: [load] is called outside the [try] of [run]. *)
Theorem run_propagates_load_error (env : Env) (domain wordlist_path : string)
    (n : Z) (out : option string) (st : State) (e : exn) :
  read_lines env wordlist_path = Raise e →
  is_OSError e = false →
  run env domain wordlist_path n out st = (Raise e, st).
Proof.
  intros Hread He. rewrite run_eq. unfold load. rewrite Hread.
  by destruct e.
Qed.

Lemma run_propagates_load_error_witness :
  run Cases.env_bad_wordlist "example.com" "words.txt" 50 None initial
  = (Raise (ValueError "'utf-8' codec can't decode byte 0xff"), initial).
Proof.
  apply (run_propagates_load_error Cases.env_bad_wordlist); reflexivity.
Defined.






(** ** What [scan] writes *)

(** Whatever way [scan] ends: the trace grows, and the results by the
    lines of the new outcomes with addresses whose coroutine ran to its
    end, in the order of the answers. *)
Lemma scan_results (env : Env) (self : SubdomainScanner) (st : State)
    (r : outcome unit) (st' : State) :
  scan env self st = (r, st') →
  ∃ tr,
    trace st' = trace st ++ tr
    ∧ results st'
      = results st ++ (line_of <$> collected (counted env (answers tr)))
    ∧ (counted env (answers tr) = answers tr
       ∨ ∃ m o, r = Raise (OtherException m) ∧ rejected env o m
                ∧ o ∈ answers tr).
Proof.
  intros Hscan.
  destruct (batches (concurrency self) (generate_subdomains self))
    as [groups|e] eqn:Hb.
  - destruct (scan_spec env self _ st r st' Hb Hscan)
      as (tr & Ht & _ & _ & Hr & _ & _
          & [(Hcount & _) | (m & o & -> & Hrej & Ho & _)]).
    + exists tr. split; [done|]. split; [done|]. by left.
    + exists tr. split; [done|]. split; [done|]. right. by exists m, o.
  - rewrite scan_eq, Hb in Hscan. injection Hscan as <- <-.
    exists []. rewrite !app_nil_r. split; [done|]. split; [done|]. by left.
Qed.

(** The files after [scan]: at most the output file differs, and only
    when it could be opened; it then holds the results, or what was
    written of them when the write failed. *)
Lemma scan_files (env : Env) (self : SubdomainScanner) (st : State)
    (r : outcome unit) (st' : State) :
  scan env self st = (r, st') →
  files st' = files st
  ∨ (∃ path, output_file self = Some path ∧ path ≠ EmptyString
       ∧ open_w env path = Return tt
       ∧ ((write_w env path (file_text (results st')) = None
           ∧ files st' =
               <[path := {| encoding := "utf-8";
                            text := file_text (results st') |}]>
                 (files st)
           ∧ r = match markup_error env (msg_saved path) with
                 | None => Return tt
                 | Some m => Raise (OtherException m)
                 end)
          ∨ (∃ w k, write_w env path (file_text (results st')) = Some (w, k)
               ∧ files st' =
                   <[path := {| encoding := "utf-8";
                                text := substring 0 k
                                          (file_text (results st')) |}]>
                     (files st)
               ∧ r = match w with
                     | DeviceFailure _ => Return tt
                     | EncodeFailure m => Raise (ValueError m)
                     end))).
Proof.
  intros Hscan.
  destruct (batches (concurrency self) (generate_subdomains self))
    as [groups|e] eqn:Hb.
  - destruct (scan_spec env self _ st r st' Hb Hscan)
      as (tr & _ & _ & _ & _ & _ & _
          & [(_ & [[_ Hfl] | (e & _ & _ & _ & Hf)])
            | (m & o & _ & _ & _ & Hf)]);
      [|by left|by left].
    unfold flushed in Hfl.
    destruct (output_file self) as [[|c path]|]; [by left; destruct Hfl| |].
    + destruct (open_w env _) as [[]|e] eqn:Hopen; [|left; by destruct Hfl].
      right. exists (String c path).
      split; [done|]. split; [done|]. split; [done|].
      destruct (write_w env _ _) as [[w k]|]; destruct Hfl as [Hf Hr].
      * right. by exists w, k.
      * by left.
    + left. by destruct Hfl.
  - rewrite scan_eq, Hb in Hscan. injection Hscan as <- <-. by left.
Qed.





(** X8. When the output file cannot be opened ([OSError], of which
    [FileNotFoundError] is a kind), a scan whose groups all complete
    still returns normally: no file is written, the results are kept,
    and the last entry of the log reports the failure. *)
Theorem output_error_is_logged (env : Env) (self : SubdomainScanner)
    (st : State) (r : outcome unit) (st' : State) (path : string)
    (e : exn) :
  output_file self = Some path → path ≠ EmptyString →
  open_w env path = Raise e → is_OSError e = true →
  scan env self st = (r, st') →
  files st' = files st
  ∧ (r = Return tt →
     last (errors st') = Some ("Error saving results: " +:+ str_exn e))
  ∧ ∃ tr, trace st' = trace st ++ tr
          ∧ results st'
            = results st ++ (line_of <$> collected (counted env (answers tr)))
          ∧ (r = Return tt → counted env (answers tr) = answers tr).
Proof.
  intros Hpath Hne Hopen He Hscan.
  split; [|split].
  - apply scan_files in Hscan as [H | (p' & Hp' & _ & Ho & _)]; [done|].
    congruence.
  - intros ->. rewrite scan_eq in Hscan. cbv zeta in Hscan.
    destruct (batches _ _) as [groups|e0]; [|done].
    destruct (for_each groups _ _) as [[[]|e1] st1]; [|done].
    unfold truthy_path, save_results, try_except, bind, lift in Hscan.
    rewrite Hpath in Hscan.
    destruct path; [done|]. simpl in Hscan. rewrite Hopen in Hscan.
    destruct e; try done; injection Hscan as <-; apply last_snoc.
  - apply scan_results in Hscan as (tr & Ht & Hr & Hrej).
    exists tr. split; [done|]. split; [done|]. intros ->.
    by destruct Hrej as [? | (m & o & [=] & _)].
Qed.

Lemma output_error_is_logged_witness :
  let st' := snd (scan Cases.env_read_only (Demo.scanner 2) initial) in
  files st' = ∅
  ∧ last (errors st') = Some "Error saving results: Permission denied".
Proof.
  destruct (output_error_is_logged Cases.env_read_only (Demo.scanner 2)
              initial
              (fst (scan Cases.env_read_only (Demo.scanner 2) initial))
              (snd (scan Cases.env_read_only (Demo.scanner 2) initial))
              "found.txt" (OSError "Permission denied"))
    as (Hf & Hlog & _).
  - reflexivity.
  - discriminate.
  - reflexivity.
  - reflexivity.
  - apply surjective_pairing.
  - cbv zeta. split; [exact Hf|]. apply Hlog. by vm_compute.
Defined.

(** X9. With no candidate at all and a concurrency other than zero,
    [scan] does no work: no query is handed to the resolver, nothing is
    collected, the bar has the total 0 and stays at 0, and the run goes
    straight to the flush. With a concurrency of zero it raises the
    [ValueError] of [range] even then. *)
Theorem scan_without_candidates (env : Env) (self : SubdomainScanner)
    (st : State) (r : outcome unit) (st' : State) :
  generate_subdomains self = [] →
  scan env self st = (r, st') →
  trace st' = trace st ∧ results st' = results st
  ∧ total st' = Some 0 ∧ completed st' = 0 ∧ shown st' = []
  ∧ (concurrency self = 0 → r = Raise (ValueError msg_range))
  ∧ (concurrency self ≠ 0 → flushed env self st r st').
Proof.
  intros Hnone Hscan.
  destruct (Z.eq_dec (concurrency self) 0) as [Hz|Hnz].
  - rewrite scan_eq in Hscan. unfold batches, range in Hscan.
    rewrite Hnone, Hz in Hscan. simpl in Hscan. injection Hscan as <- <-.
    done.
  - assert (Hb : batches (concurrency self) (generate_subdomains self)
                 = Return []).
    { rewrite Hnone. unfold batches, range, range_len.
      rewrite (proj2 (Z.eqb_neq _ 0)) by done. simpl.
      by destruct (0 <? concurrency self). }
    destruct (scan_spec env self _ st r st' Hb Hscan)
      as (tr & Ht & Hto & Hleft & Hr & Hc & Hs & Hcase).
    assert (tr = []) as ->.
    { destruct Hleft as [[k Hord] | (d & g & rest & _ & _ & Hd & _)];
        [by rewrite take_nil in Hord | by destruct d]. }
    destruct Hcase as [(_ & Hcase) | (m & o & _ & _ & Ho & _)];
      [|by apply elem_of_nil in Ho].
    rewrite app_nil_r in Ht, Hr. rewrite Hnone in Hto.
    repeat (split; [done|]). intros _.
    destruct Hcase
      as [[_ Hfl] | (e & _ & _ & (d & g & rest & _ & _ & Hd & _) & _)];
      [done | by destruct d].
Qed.

Lemma scan_without_candidates_witness :
  let self := scanner_of "example.com" [EmptyString] 50 (Some "found.txt") in
  let st' := snd (scan Demo.env self initial) in
  trace st' = [] ∧ total st' = Some 0.
Proof.
  destruct (scan_without_candidates Demo.env
              (scanner_of "example.com" [EmptyString] 50 (Some "found.txt"))
              initial
              (fst (scan Demo.env
                      (scanner_of "example.com" [EmptyString] 50
                         (Some "found.txt")) initial))
              (snd (scan Demo.env
                      (scanner_of "example.com" [EmptyString] 50
                         (Some "found.txt")) initial)))
    as (Ht & _ & Hto & _).
  - reflexivity.
  - apply surjective_pairing.
  - cbv zeta. split; [exact Ht | exact Hto].
Defined.

(** ** The application, with a concurrency that is not positive *)

(** X10. [run] with a concurrency of zero on a wordlist that is not
    empty, for a domain whose start message the console renders: the
    scan is announced, the bar gets its total, the [ValueError] of
    [range] is logged as an unexpected error, and [run] returns
    normally. Nothing else happens: no query, no result, no file. *)
Theorem run_with_zero_concurrency (env : Env) (domain wordlist_path : string)
    (out : option string) (st : State) (wl : list string) (st1 : State) :
  load env wordlist_path st = (Return wl, st1) → wl ≠ [] →
  markup_error env (msg_starting domain) = None →
  run env domain wordlist_path 0 out st =
    (Return tt,
     set_errors (errors st1 ++ ["Unexpected error: " +:+ msg_range])
       (set_bar (Some (Z.of_nat (length wl))) 0 []
          (scan_start domain st1))).
Proof.
  intros Hload Hwl Hstart.
  pose proof (load_candidates env domain wordlist_path 0 out st wl st1 Hload)
    as Hgen.
  rewrite run_eq, Hload. destruct wl as [|w wl]; [done|]. cbv zeta.
  rewrite Hstart.
  rewrite scan_eq. unfold batches, range. simpl Z.eqb. cbv iota zeta.
  unfold scanner_of in Hgen. rewrite Hgen, length_fmap. reflexivity.
Qed.

Lemma run_with_zero_concurrency_witness :
  let st' := snd (run Demo.env "example.com" "words.txt" 0 (Some "found.txt")
                    initial) in
  errors st' = ["Unexpected error: range() arg 3 must not be zero"]
  ∧ trace st' = [] ∧ files st' = ∅.
Proof.
  cbv zeta.
  rewrite (run_with_zero_concurrency Demo.env "example.com" "words.txt"
             (Some "found.txt") initial ["www"; "doesnotexist123"; "mail"]
             initial).
  - by vm_compute.
  - reflexivity.
  - discriminate.
  - reflexivity.
Defined.

(** X11. [run] with a negative concurrency, a wordlist that is not empty
    and an output file that can be opened and written, for a domain and
    a path whose messages the console renders: no query is handed to
    the resolver, yet the run ends as a success, with an empty output
    file written and announced on the console. *)
Theorem run_with_negative_concurrency (env : Env)
    (domain wordlist_path : string) (n : Z) (path : string) (st : State)
    (wl : list string) (st1 : State) :
  n < 0 →
  load env wordlist_path st = (Return wl, st1) → wl ≠ [] →
  path ≠ EmptyString → open_w env path = Return tt →
  write_w env path EmptyString = None →
  markup_error env (msg_starting domain) = None →
  markup_error env (msg_saved path) = None →
  run env domain wordlist_path n (Some path) st =
    (Return tt,
     set_console (console st1 ++ [msg_starting domain; msg_saved path])
       (set_files
          (<[path := {| encoding := "utf-8"; text := EmptyString |}]>
             (files st1))
          (set_bar (Some (Z.of_nat (length wl))) 0 []
             (scan_start domain st1)))).
Proof.
  intros Hn Hload Hwl Hpath Hopen Hwrite Hstart Hsaved.
  pose proof (load_candidates env domain wordlist_path n (Some path) st wl
                st1 Hload) as Hgen.
  rewrite run_eq, Hload. destruct wl as [|w wl]; [done|]. cbv zeta.
  rewrite Hstart.
  rewrite scan_eq. unfold batches, range, range_len.
  cbn [concurrency output_file].
  rewrite (proj2 (Z.eqb_neq n 0)) by lia.
  rewrite (proj2 (Z.ltb_ge 0 n)) by lia.
  unfold scanner_of in Hgen. rewrite Hgen, length_fmap.
  rewrite (proj2 (Z.ltb_ge _ 0)) by lia.
  destruct path as [|c path]; [done|].
  simpl. unfold save_results, try_except, bind, lift, write_file. simpl.
  rewrite Hopen. change (file_text []) with EmptyString. rewrite Hwrite.
  unfold console_print_f. unfold msg_saved in Hsaved. rewrite Hsaved.
  unfold console_print, modify. simpl.
  by rewrite <- app_assoc.
Qed.

Lemma run_with_negative_concurrency_witness :
  let st' := snd (run Demo.env "example.com" "words.txt" (-5)
                    (Some "found.txt") initial) in
  files st' !! "found.txt"
    = Some {| encoding := "utf-8"; text := EmptyString |}
  ∧ trace st' = [].
Proof.
  cbv zeta.
  rewrite (run_with_negative_concurrency Demo.env "example.com" "words.txt"
             (-5) "found.txt" initial ["www"; "doesnotexist123"; "mail"]
             initial).
  - by vm_compute.
  - lia.
  - reflexivity.
  - discriminate.
  - discriminate.
  - reflexivity.
  - reflexivity.
  - reflexivity.
  - reflexivity.
Defined.



(** ** What a run prints and logs *)

Lemma effects_refl (st : State) : effects [] [] st st.
Proof. split; simpl; rewrite ?app_nil_r; try done; lia. Qed.

Lemma effects_trans (t1 t2 : list event) (e1 e2 : list string)
    (st st1 st2 : State) :
  effects t1 e1 st st1 → effects t2 e2 st1 st2 →
  effects (t1 ++ t2) (e1 ++ e2) st st2.
Proof.
  intros [Ht Hr Hc He Hk] [Ht' Hr' Hc' He' Hk']. split.
  - by rewrite Ht', Ht, app_assoc.
  - by rewrite Hr', Hr, answers_app, collected_app, fmap_app, app_assoc.
  - by rewrite Hc', Hc, answers_app, collected_app, fmap_app, app_assoc.
  - by rewrite He', He, app_assoc.
  - rewrite Hk', Hk, length_app. lia.
Qed.

Lemma expected_errors_app (env : Env) (q : nat) (l1 l2 : list string) :
  expected_errors env q (l1 ++ l2)
  = expected_errors env q l1 ++ expected_errors env (q + length l1) l2.
Proof.
  revert q. induction l1 as [|x l1 IH]; intros q; simpl.
  - by rewrite Nat.add_0_r.
  - rewrite IH, <- app_assoc. do 3 f_equal. lia.
Qed.

Lemma concat_Permutation {A} (l k : list (list A)) :
  l ≡ₚ k → concat l ≡ₚ concat k.
Proof.
  induction 1 as [|x l k _ IH|x y l|l k m _ IH1 _ IH2]; simpl.
  - done.
  - by rewrite IH.
  - by rewrite !app_assoc, (Permutation_app_comm y x).
  - by etrans.
Qed.

Section Effects.

Variable env : Env.

Lemma starts_effects (batch : list string) (st : State) :
  ∃ pending st',
    map_m (resolve_subdomain_start env) batch st = (Return pending, st')
    ∧ concat (task_err env <$> pending)
      = expected_errors env (asked st) batch
    ∧ task_summary env <$> pending = expected env (asked st) batch
    ∧ effects (Asked <$> batch) [] st st'
    ∧ asked st' = (asked st + length batch)%nat.
Proof.
  revert st. induction batch as [|s batch IH]; intros st.
  - exists [], st. split; [done|]. split; [done|]. split; [done|].
    split; [apply effects_refl | simpl; lia].
  - set (t := {| t_subdomain := s; t_start_time := clock env (ticks st);
                 t_query := asked st |}).
    set (st1 := set_asked (S (asked st))
                  (set_trace (trace st ++ [Asked s])
                     (set_ticks (S (ticks st)) st))).
    assert (Hstart : resolve_subdomain_start env s st = (Return t, st1))
      by reflexivity.
    assert (He1 : effects [Asked s] [] st st1)
      by (split; simpl; rewrite ?app_nil_r; try done; lia).
    destruct (IH st1) as (pending & st2 & Hp & Herr & Hsum & He2 & Ha).
    exists (t :: pending), st2. split; [|split; [|split; [|split]]].
    + simpl. unfold bind at 1. rewrite Hstart.
      unfold bind at 1. by rewrite Hp.
    + rewrite fmap_cons. simpl. by rewrite Herr.
    + rewrite fmap_cons. simpl. by rewrite Hsum.
    + rewrite fmap_cons. apply (effects_trans [_] _ [] [] _ _ _ He1 He2).
    + rewrite Ha. simpl. lia.
Qed.

Lemma resume_effects (t : task) (st st' : State) :
  resolve_subdomain_resume env t st = (Return tt, st') →
  effects [Answered (outcome_of env t st)] (task_err env t) st st'.
Proof.
  unfold resolve_subdomain_resume, outcome_of, task_err, bind.
  destruct (gethostbyname env (t_query t)) as [[|a addrs]|e]; simpl.
  - intros [= <-]. split; simpl; rewrite ?app_nil_r; try done; lia.
  - unfold console_print_f. destruct (markup_error env _); [done|]. simpl.
    intros [= <-]. split; simpl; rewrite ?app_nil_r; try done; lia.
  - destruct e; simpl; intros [= <-];
      split; simpl; rewrite ?app_nil_r; try done; lia.
Qed.

Lemma decide_effects (st : State) :
  effects [] [] st (set_steps (S (steps st)) st).
Proof. split; simpl; rewrite ?app_nil_r; try done; lia. Qed.

(** The coroutines of a batch, by the order [ts] in which the event
    loop resumed them. *)
Lemma run_pending_effects (fuel : nat) (pending : list task) (st : State)
    (r : outcome unit) (st' : State) :
  (length pending ≤ fuel)%nat →
  run_pending env fuel pending st = (r, st') →
  ∃ ts os st1,
    effects (Answered <$> os) (concat (task_err env <$> ts)) st st1
    ∧ or_halted env r st1 st'
    ∧ summary <$> os = task_summary env <$> ts
    ∧ (r = Return tt → ts ≡ₚ pending)
    ∧ ((∀ n, schedule env n = Complete 0) → r = Return tt → ts = pending).
Proof.
  revert pending st. induction fuel as [|fuel IH]; intros pending st Hlen.
  { destruct pending; [|simpl in Hlen; lia].
    intros [= <- <-]. exists [], [], st.
    split; [apply effects_refl|]. split; [by left | done]. }
  destruct (decide (pending = [])) as [->|Hp].
  { intros [= <- <-]. exists [], [], st.
    split; [apply effects_refl|]. split; [by left | done]. }
  assert (Hpos : (0 < length pending)%nat)
    by (destruct pending; [done | simpl; lia]).
  rewrite run_pending_step by done. cbv zeta.
  destruct (schedule env (steps st)) as [k|] eqn:Hk.
  - destruct (lookup_lt_is_Some_2 pending (k mod length pending)%nat)
      as [t Ht]; [apply Nat.mod_upper_bound; lia|].
    rewrite Ht.
    destruct (resolve_subdomain_resume env t _) as [[[]|e] st1] eqn:Hres.
    + intros Hrun.
      apply IH in Hrun as (ts & os & st2 & He & Hh & Hsum & Hperm & Hfifo).
      2:{ rewrite length_delete by eauto. lia. }
      apply resume_effects in Hres.
      exists (t :: ts),
        (outcome_of env t (set_steps (S (steps st)) st) :: os), st2.
      split; [|split; [|split; [|split]]].
      * rewrite !fmap_cons. simpl.
        apply (effects_trans [] (_ :: _) [] _ _ _ _ (decide_effects st)).
        apply (effects_trans [_] _ _ _ _ _ _ Hres He).
      * done.
      * rewrite !fmap_cons. by rewrite Hsum.
      * intros Hr. rewrite (Hperm Hr). symmetry.
        by apply delete_Permutation.
      * intros Hall Hr. rewrite Hall in Hk. injection Hk as <-.
        rewrite Nat.Div0.mod_0_l in Ht.
        rewrite Nat.Div0.mod_0_l in Hfifo.
        destruct pending as [|t0 pending0]; [done|].
        simpl in Ht, Hfifo. injection Ht as <-. by rewrite (Hfifo Hall Hr).
    + apply resume_spec in Hres
        as [[[=] _] | [(_ & _ & _ & ->) | (m & [= ->] & Hrej & Hhalt)]];
        intros [= <- <-]; exists [], [], (set_steps (S (steps st)) st);
        (split; [apply decide_effects|]); (split; [|done]).
      * by left.
      * right. by eexists _, m.
  - intros [= <- <-]. exists [], [], (set_steps (S (steps st)) st).
    split; [apply decide_effects|]. split; [by left | done].
Qed.

Lemma gather_effects (batch : list string) (st : State) (r : outcome unit)
    (st' : State) :
  gather env batch st = (r, st') →
  ∃ os errs st1,
    effects ((Asked <$> batch) ++ (Answered <$> os)) errs st st1
    ∧ or_halted env r st1 st'
    ∧ (r = Return tt → errs ≡ₚ expected_errors env (asked st) batch)
    ∧ ((∀ n, schedule env n = Complete 0) → r = Return tt →
       errs = expected_errors env (asked st) batch
       ∧ summary <$> os = expected env (asked st) batch).
Proof.
  unfold gather, bind.
  destruct (starts_effects batch st)
    as (pending & st1 & -> & Herr & Hsum & He1 & _).
  intros Hrun.
  apply run_pending_effects in Hrun
    as (ts & os & st2 & He2 & Hh & Hos & Hperm & Hfifo); [|done].
  exists os, (concat (task_err env <$> ts)), st2.
  split; [|split; [|split]].
  - apply (effects_trans _ _ [] _ _ _ _ He1 He2).
  - done.
  - intros Hr. rewrite <- Herr. apply concat_Permutation.
    by rewrite (Hperm Hr).
  - intros Hall Hr. rewrite (Hfifo Hall Hr) in *. by rewrite Hos.
Qed.

Lemma loop_effects (groups : list (list string)) (st : State)
    (r : outcome unit) (st' : State) :
  for_each groups (gather env) st = (r, st') →
  ∃ tr errs st1,
    effects tr errs st st1
    ∧ or_halted env r st1 st'
    ∧ (r = Return tt →
       errs ≡ₚ expected_errors env (asked st) (concat groups))
    ∧ ((∀ n, schedule env n = Complete 0) → r = Return tt →
       errs = expected_errors env (asked st) (concat groups)
       ∧ summary <$> answers tr = expected env (asked st) (concat groups)).
Proof.
  revert st. induction groups as [|g groups IH]; intros st.
  { intros [= <- <-]. exists [], [], st.
    split; [apply effects_refl|]. split; [by left | done]. }
  cbn [for_each]. unfold bind.
  destruct (gather env g st) as [r1 st1] eqn:Hg.
  pose proof (gather_spec env g st r1 st1 Hg) as (tr0 & _ & Hcase).
  apply gather_effects in Hg as (os & e1 & st2 & He1 & Hh1 & Hperm1 & Hfifo1).
  destruct r1 as [[]|e].
  - destruct Hh1 as [-> | (o & m & [=] & _)].
    destruct Hcase
      as [[Hd [(_ & Hdone) | (e & [=] & _)]] | (m & o & st3 & [=] & _)].
    assert (Hq : asked st2 = (asked st + length g)%nat).
    { destruct Hd as [_ _ _ _ _ _ ->].
      by apply batch_done_facts in Hdone as [-> _]. }
    intros Hloop.
    apply IH in Hloop as (tr2 & e2 & st3 & He2 & Hh2 & Hperm2 & Hfifo2).
    rewrite Hq in Hperm2, Hfifo2.
    exists (((Asked <$> g) ++ (Answered <$> os)) ++ tr2), (e1 ++ e2), st3.
    split; [by apply (effects_trans _ _ _ _ _ _ _ He1 He2)|].
    split; [done|]. split.
    + intros Hr. simpl. rewrite expected_errors_app.
      by rewrite (Hperm1 eq_refl), (Hperm2 Hr).
    + intros Hall Hr. simpl. rewrite expected_errors_app, expected_app.
      destruct (Hfifo1 Hall eq_refl) as [-> Hs1].
      destruct (Hfifo2 Hall Hr) as [-> Hs2]. split; [done|].
      rewrite !answers_app, answers_Asked, answers_Answered. simpl.
      by rewrite fmap_app, Hs1, Hs2.
  - intros [= <- <-]. eexists _, e1, st2. split; [exact He1|].
    split; [exact Hh1 | done].
Qed.

(** [scan] as a whole: what the groups printed, collected and logged,
    followed by what the flush printed or logged. When the console
    rejected the line of an outcome, that outcome is the last event and
    is neither printed nor collected. *)
Lemma scan_effects (self : SubdomainScanner) (groups : list (list string))
    (st : State) (r : outcome unit) (st' : State) :
  batches (concurrency self) (generate_subdomains self) = Return groups →
  scan env self st = (r, st') →
  ∃ tr errs said logged,
    (trace st' = trace st ++ tr
     ∨ ∃ o m, r = Raise (OtherException m) ∧ rejected env o m
              ∧ trace st' = trace st ++ tr ++ [Answered o])
    ∧ results st' = results st ++ (line_of <$> collected (answers tr))
    ∧ console st' = console st
        ++ (console_of <$> collected (answers tr)) ++ said
    ∧ errors st' = errors st ++ errs ++ logged
    ∧ (said = [] ∨ ∃ path, output_file self = Some path ∧ r = Return tt
                           ∧ said = [msg_saved path])
    ∧ (logged = []
       ∨ ∃ path m,
           output_file self = Some path
           ∧ logged = ["Error saving results: " +:+ m]
           ∧ ((∃ e, open_w env path = Raise e ∧ is_OSError e = true
                    ∧ m = str_exn e)
              ∨ (open_w env path = Return tt
                 ∧ ∃ k, write_w env path (file_text (results st'))
                        = Some (DeviceFailure m, k))))
    ∧ (r = Return tt →
       errs ≡ₚ expected_errors env (asked st) (concat groups))
    ∧ ((∀ n, schedule env n = Complete 0) → r = Return tt →
       errs = expected_errors env (asked st) (concat groups)
       ∧ summary <$> answers tr = expected env (asked st) (concat groups)).
Proof.
  intros Hb. rewrite scan_eq, Hb. cbv zeta.
  destruct (for_each groups _ _) as [r1 st1] eqn:Hloop.
  apply loop_effects in Hloop
    as (tr & errs & st2 & [Ht Hr Hc He _] & Hh & Hperm & Hfifo).
  simpl in Ht, Hr, Hc, He, Hperm, Hfifo.
  destruct r1 as [[]|e].
  - destruct Hh as [-> | (o & m & [=] & _)].
    unfold truthy_path, save_results, try_except, bind, lift, write_file,
      console_print_f.
    destruct (output_file self) as [[|c path]|] eqn:Hpath; simpl.
    + intros [= <- <-]. exists tr, errs, [], [].
      rewrite !app_nil_r. split; [by left|].
      repeat (split; [done || by left|]). done.
    + destruct (open_w env _) as [[]|e] eqn:Hopen.
      * destruct (write_w env _ _) as [[[m|m] k]|] eqn:Hw; simpl.
        -- intros [= <- <-].
           exists tr, errs, [], ["Error saving results: " +:+ m]. simpl.
           rewrite He, app_nil_r, <- app_assoc.
           split; [by left|]. split; [done|]. split; [done|].
           split; [done|]. split; [by left|].
           split; [|split; [exact Hperm | intros Hall _; by apply Hfifo]].
           right. exists (String c path), m. split; [done|]. split; [done|].
           right. split; [done|]. by exists k.
        -- intros [= <- <-]. exists tr, errs, [], [].
           rewrite !app_nil_r. split; [by left|].
           repeat (split; [done || by left|]). done.
        -- destruct (markup_error env _) as [m|] eqn:Hm; simpl.
           ++ intros [= <- <-]. exists tr, errs, [], [].
              rewrite !app_nil_r. split; [by left|].
              repeat (split; [done || by left|]). done.
           ++ intros [= <- <-]. exists tr, errs, [msg_saved (String c path)], [].
              simpl. rewrite Hc, app_nil_r, <- app_assoc.
              split; [by left|]. split; [done|]. split; [done|].
              split; [done|]. split; [right; by eexists|]. split; [by left|].
              split; [exact Hperm|]. intros Hall _. by apply Hfifo.
      * destruct e; simpl; intros [= <- <-];
          first [ eexists tr, errs, [], [_]; simpl;
                  rewrite He, app_nil_r, <- app_assoc;
                  split; [by left|]; split; [done|]; split; [done|];
                  split; [done|]; split; [by left|];
                  split; [|split; [exact Hperm
                                  | intros Hall _; by apply Hfifo]];
                  right; eexists (String c path), _;
                  split; [done|]; split; [done|];
                  left; eexists; split; [exact Hopen|]; done
                | exists tr, errs, [], []; rewrite !app_nil_r;
                  split; [by left|];
                  repeat (split; [done || by left|]); done ].
    + intros [= <- <-]. exists tr, errs, [], [].
      rewrite !app_nil_r. split; [by left|].
      repeat (split; [done || by left|]). done.
  - intros [= <- <-]. exists tr, errs, [], []. rewrite !app_nil_r.
    destruct Hh as [-> | (o & m & -> & Hrej & ->)].
    + split; [by left|]. repeat (split; [done || by left|]). done.
    + simpl. split; [right; exists o, m; by rewrite Ht, app_assoc|].
      repeat (split; [done || by left|]). done.
Qed.

End Effects.




(** X14. The error log of a completed scan. With a concurrency of at
    least one, a scan that returns has added to the log one message for
    every candidate whose query ended in an [Exception] other than a
    [DNSError], naming the candidate, and none for any other candidate:
    up to the order in which the answers arrived these are the messages
    expected when the candidates are queried in the order of
    generation. After them comes at most one message, the one for the
    output file that could not be opened or, once opened, could not be
    written. Nothing already in the log is lost. *)
Theorem error_log_of_a_scan (env : Env) (self : SubdomainScanner)
    (st st' : State) :
  1 ≤ concurrency self →
  scan env self st = (Return tt, st') →
  ∃ errs logged,
    errors st' = errors st ++ errs ++ logged
    ∧ errs ≡ₚ expected_errors env (asked st) (generate_subdomains self)
    ∧ (logged = []
       ∨ ∃ path m,
           output_file self = Some path
           ∧ logged = ["Error saving results: " +:+ m]
           ∧ ((∃ e, open_w env path = Raise e ∧ is_OSError e = true
                    ∧ m = str_exn e)
              ∨ (open_w env path = Return tt
                 ∧ ∃ k, write_w env path (file_text (results st'))
                        = Some (DeviceFailure m, k)))).
Proof.
  intros Hn Hscan.
  pose proof (batches_chunks _ (generate_subdomains self) Hn) as Hb.
  destruct (scan_effects env self _ st _ st' Hb Hscan)
    as (tr & errs & said & logged & _ & _ & _ & He & _ & Hlogged & Hperm & _).
  exists errs, logged. split; [done|]. split; [|done].
  rewrite (Hperm eq_refl). by rewrite chunks_concat.
Qed.

Lemma error_log_of_a_scan_witness :
  let self := scanner_of "example.com" Cases.four_words 3
                (Some "found.txt") in
  ∃ errs logged,
    errors (snd (scan Cases.env_disk_full self initial))
    = errors initial ++ errs ++ logged
    ∧ errs ≡ₚ expected_errors Cases.env_disk_full (asked initial)
                (generate_subdomains self)
    ∧ (logged = []
       ∨ ∃ path m,
           output_file self = Some path
           ∧ logged = ["Error saving results: " +:+ m]
           ∧ ((∃ e, open_w Cases.env_disk_full path = Raise e
                    ∧ is_OSError e = true ∧ m = str_exn e)
              ∨ (open_w Cases.env_disk_full path = Return tt
                 ∧ ∃ k, write_w Cases.env_disk_full path
                          (file_text
                             (results
                                (snd (scan Cases.env_disk_full self
                                        initial))))
                        = Some (DeviceFailure m, k)))).
Proof.
  apply (error_log_of_a_scan Cases.env_disk_full
           (scanner_of "example.com" Cases.four_words 3 (Some "found.txt"))
           initial).
  - simpl. lia.
  - by vm_compute.
Defined.

(** X15. When the answers arrive in the order of the questions (the
    event loop always resumes the oldest pending coroutine), a completed
    scan with a concurrency of at least one answers the candidates in
    the order of generation, each with the answer to its own query: the
    results are the lines of the candidates with addresses in the order
    of the word list, and the log has the messages of the failed queries
    in that order, followed by at most the one message of an output
    file that could not be opened or written. *)
Theorem answers_in_order_give_results_in_order (env : Env)
    (self : SubdomainScanner) (st st' : State) :
  (∀ n, schedule env n = Complete 0) →
  1 ≤ concurrency self →
  scan env self st = (Return tt, st') →
  ∃ os logged,
    summary <$> os = expected env (asked st) (generate_subdomains self)
    ∧ results st' = results st ++ (line_of <$> collected os)
    ∧ errors st'
      = errors st
          ++ expected_errors env (asked st) (generate_subdomains self)
          ++ logged
    ∧ (logged = []
       ∨ ∃ path m,
           output_file self = Some path
           ∧ logged = ["Error saving results: " +:+ m]
           ∧ ((∃ e, open_w env path = Raise e ∧ is_OSError e = true
                    ∧ m = str_exn e)
              ∨ (open_w env path = Return tt
                 ∧ ∃ k, write_w env path (file_text (results st'))
                        = Some (DeviceFailure m, k)))).
Proof.
  intros Hall Hn Hscan.
  pose proof (batches_chunks _ (generate_subdomains self) Hn) as Hb.
  destruct (scan_effects env self _ st _ st' Hb Hscan)
    as (tr & errs & said & logged & _ & Hr & _ & He & _ & Hlogged & _ & Hfifo).
  destruct (Hfifo Hall eq_refl) as [-> Hsum].
  rewrite chunks_concat in He, Hsum by done.
  by exists (answers tr), logged.
Qed.

Lemma answers_in_order_give_results_in_order_witness :
  let self := scanner_of "example.com" Cases.four_words 3 None in
  ∃ os logged,
    summary <$> os
    = expected Cases.env_fifo (asked initial) (generate_subdomains self)
    ∧ results (snd (scan Cases.env_fifo self initial))
      = results initial ++ (line_of <$> collected os)
    ∧ errors (snd (scan Cases.env_fifo self initial))
      = errors initial
          ++ expected_errors Cases.env_fifo (asked initial)
               (generate_subdomains self)
          ++ logged
    ∧ (logged = []
       ∨ ∃ path m,
           output_file self = Some path
           ∧ logged = ["Error saving results: " +:+ m]
           ∧ ((∃ e, open_w Cases.env_fifo path = Raise e
                    ∧ is_OSError e = true ∧ m = str_exn e)
              ∨ (open_w Cases.env_fifo path = Return tt
                 ∧ ∃ k, write_w Cases.env_fifo path
                          (file_text
                             (results (snd (scan Cases.env_fifo self initial))))
                        = Some (DeviceFailure m, k)))).
Proof.
  apply (answers_in_order_give_results_in_order Cases.env_fifo
           (scanner_of "example.com" Cases.four_words 3 None) initial).
  - done.
  - simpl. lia.
  - by vm_compute.
Defined.

(** ** The elapsed time of an answer *)


Section Timing.

Variable env : Env.







End Timing.


